(** * Discord voice stream playback and streaming TTS delivery

    A shallow embedding of [src/discord/voice/stream-playback.ts]
    (the PCM resample transform, the playback buffer sizing and the
    playback lifecycle of [playDiscordPcmStream]) and of the streaming
    delivery controller of the TTS module, with the properties the
    specification states about them.

    JavaScript numbers that hold byte counts, offsets, sample rates and
    channel counts are integers in the code paths below and are modelled
    as [Z]; the duration [maxBufferedMs] and the capacity computed from
    it are IEEE-754 binary64 values; a [Buffer] is a list of bytes. *)

From Stdlib Require Import ZArith Lia List Bool String QArith Qround.
From Stdlib Require Import SpecFloat.
From Stdlib.Strings Require Import Byte.
From stdpp Require Import base list.

Open Scope Z_scope.

(** ** Errors and the error monad

    A [throw] inside the embedded code is a [Throw] result; [try/catch]
    is a match on it. *)

Inductive Error : Type :=
| UnsupportedSampleRate (rate : Z)
    (* new Error(`unsupported PCM sample rate for Discord stream playback: ${rate}`) *)
| BufferRangeError
    (* the RangeError of Node's Buffer API: an offset, value or size out of range *)
| StreamError (message : string)
    (* an error emitted by a stage of the pipeline *)
| InvalidArgValue.
    (* Node's ERR_INVALID_ARG_VALUE: an option of a constructor is refused *)

Inductive Result (A : Type) : Type :=
| Ok (a : A)
| Throw (e : Error).

Arguments Ok {A} a.
Arguments Throw {A} e.

#[global] Instance Result_ret : MRet Result := fun A a => Ok a.

#[global] Instance Result_bind : MBind Result := fun A B f m =>
  match m with
  | Ok a => f a
  | Throw e => Throw e
  end.

Definition is_Ok {A} (r : Result A) : bool :=
  match r with Ok _ => true | Throw _ => false end.

(** [for (let i = start; i < start + count; i += 1) body(i)], threading
    the variables the body assigns. *)
Fixpoint for_loop {S : Type} (count : nat) (i : Z)
    (body : Z -> S -> Result S) (s : S) : Result S :=
  match count with
  | O => Ok s
  | Datatypes.S n => s' ← body i s; for_loop n (i + 1) body s'
  end.

(** ** Node's Buffer, as far as the transform uses it *)

Abbreviation Buffer := (list byte).

Definition byte_to_Z (b : byte) : Z := Z.of_N (Byte.to_N b).

(** Storing a number into a [Uint8Array] slot keeps its low eight bits. *)
Definition Z_to_byte (z : Z) : byte :=
  default "000"%byte (Byte.of_N (Z.to_N (Z.land z 255))).

Definition Buffer_length (buf : Buffer) : Z := Z.of_nat (length buf).

Definition Buffer_alloc (size : Z) : Buffer :=
  replicate (Z.to_nat size) "000"%byte.

Definition Buffer_concat (bufs : list Buffer) : Buffer := concat bufs.

(** [buf.subarray(start, end)]: both indices are clamped to the buffer,
    a negative index counts from the end. *)
Definition relative_index (len i : Z) : Z :=
  if i <? 0 then Z.max (len + i) 0 else Z.min i len.

Definition Buffer_subarray (buf : Buffer) (start end_ : Z) : Buffer :=
  let len := Buffer_length buf in
  let b := relative_index len start in
  let e := relative_index len end_ in
  take (Z.to_nat (e - b)) (drop (Z.to_nat b) buf).

(** [buf.subarray(start)] *)
Definition Buffer_subarray_from (buf : Buffer) (start : Z) : Buffer :=
  Buffer_subarray buf start (Buffer_length buf).

(** Two bytes, little endian, read as a sixteen bit two's complement
    value: bit 15 is the sign. *)
Definition int16_of (first last : byte) : Z :=
  let val := byte_to_Z first + byte_to_Z last * 2 ^ 8 in
  if Z.testbit val 15 then val - 2 ^ 16 else val.

(** [buf.readInt16LE(offset)]; an offset whose two bytes are not both
    inside the buffer throws. *)
Definition readInt16LE (buf : Buffer) (offset : Z) : Result Z :=
  if offset <? 0 then Throw BufferRangeError
  else
    match buf !! Z.to_nat offset, buf !! Z.to_nat (offset + 1) with
    | Some first, Some last => Ok (int16_of first last)
    | _, _ => Throw BufferRangeError
    end.

(** [buf.writeInt16LE(value, offset)]: the value must fit sixteen signed
    bits and both bytes must lie inside the buffer; the buffer is
    updated in place. *)
Definition writeInt16LE (buf : Buffer) (value offset : Z) : Result Buffer :=
  if (value <? - 2 ^ 15) || (2 ^ 15 - 1 <? value) then Throw BufferRangeError
  else if (offset <? 0) || (Buffer_length buf <? offset + 2) then Throw BufferRangeError
  else
    Ok (<[Z.to_nat (offset + 1) := Z_to_byte (Z.shiftr value 8)]>
          (<[Z.to_nat offset := Z_to_byte value]> buf)).

(** ** Constants of stream-playback.ts *)

Definition DISCORD_SAMPLE_RATE : Z := 48000.
Definition DISCORD_CHANNELS : Z := 2.
Definition PCM_SAMPLE_BYTES : Z := 2.
Definition DEFAULT_MAX_BUFFERED_MS : Z := 6000.
Definition MIN_BUFFERED_MS : Z := 200.

(** ** Numbers

    A JavaScript number is an IEEE-754 binary64 value: a zero, an
    infinity, NaN, or a finite value [(-1)^s * m * 2^e]. The arithmetic
    is the one of the standard library's specification of binary64
    (precision 53, exponent bound 1024), which rounds to nearest, ties
    to even. *)

Abbreviation Number := spec_float.

(** A number literal with an integer value; exact below [2^53]. *)
Definition Number_of_Z (n : Z) : Number := binary_normalize 53 1024 n 0 false.

Definition Number_div (a b : Number) : Number := SFdiv 53 1024 a b.
Definition Number_mul (a b : Number) : Number := SFmul 53 1024 a b.

Definition Number_isNaN (a : Number) : bool :=
  match a with S754_nan => true | _ => false end.

(** [Math.max(a, b)]: NaN when an argument is NaN, and [+0] above [-0]. *)
Definition Math_max (a b : Number) : Number :=
  if Number_isNaN a || Number_isNaN b then S754_nan
  else
    match a, b with
    | S754_zero sa, S754_zero sb => S754_zero (sa && sb)
    | _, _ => if SFltb a b then b else a
    end.

(** The integer value of [(-1)^s * m]. *)
Definition signed_mantissa (s : bool) (m : positive) : Z :=
  if s then Z.neg m else Z.pos m.

(** [Math.floor(x)]: a value with a non-negative exponent is an integer
    already; otherwise the mantissa is shifted right, which rounds down. *)
Definition Math_floor (x : Number) : Number :=
  match x with
  | S754_finite s m e =>
      if 0 <=? e then x
      else binary_normalize 53 1024 (Z.shiftr (signed_mantissa s m) (- e)) 0 s
  | _ => x
  end.

(** [Number.isInteger(x)]. *)
Definition Number_isInteger (x : Number) : bool :=
  match x with
  | S754_zero _ => true
  | S754_finite _ m e => (0 <=? e) || (Z.land (Z.pos m) (Z.ones (- e)) =? 0)
  | _ => false
  end.


(** ** resolveMaxBufferedBytes

    [maxBufferedMs] is an optional number of milliseconds. The product
    of the three integer constants is exact. *)

Definition resolveMaxBufferedBytes (maxBufferedMs : option Number) : Number :=
  let boundedMs :=
    Math_max (Number_of_Z MIN_BUFFERED_MS)
             (default (Number_of_Z DEFAULT_MAX_BUFFERED_MS) maxBufferedMs) in
  let bytesPerSecond :=
    Number_of_Z (DISCORD_SAMPLE_RATE * DISCORD_CHANNELS * PCM_SAMPLE_BYTES) in
  Math_max (Number_of_Z 32768)
    (Math_floor (Number_mul (Number_div boundedMs (Number_of_Z 1000)) bytesPerSecond)).

Arguments resolveMaxBufferedBytes : simpl never.





(** ** PcmTransform *)

Record PcmTransform : Type := {
  carry : Buffer;
  frameBytes : Z;
  inputSampleRate : Z;
  inputChannels : Z
}.

Definition set_carry (this : PcmTransform) (c : Buffer) : PcmTransform :=
  {| carry := c;
     frameBytes := frameBytes this;
     inputSampleRate := inputSampleRate this;
     inputChannels := inputChannels this |}.

(** The constructor. The channel count has the static type [1 | 2] in
    the source; no run-time check looks at it. *)
Definition PcmTransform_new (inputSampleRate inputChannels : Z) : Result PcmTransform :=
  let frameBytes := inputChannels * PCM_SAMPLE_BYTES in
  if negb (inputSampleRate =? 24000) && negb (inputSampleRate =? 48000)
  then Throw (UnsupportedSampleRate inputSampleRate)
  else Ok {| carry := Buffer_alloc 0;
             frameBytes := frameBytes;
             inputSampleRate := inputSampleRate;
             inputChannels := inputChannels |}.

(** *** What the transform computes, as a function on bytes

    One stereo output frame per input frame: the left sample, then the
    right sample when the input is stereo and the left one again
    otherwise; each frame repeated [upsample_factor] times. *)

Definition upsample_factor (rate : Z) : nat :=
  if rate =? DISCORD_SAMPLE_RATE then 1%nat else 2%nat.

Definition frame_bytes (channels : Z) : nat := Z.to_nat (channels * PCM_SAMPLE_BYTES).

Definition stereo_frame (channels : Z) (input : Buffer) (frame : nat) : Buffer :=
  let base := (frame * frame_bytes channels)%nat in
  let left := take 2 (drop base input) in
  let right := if channels =? 2 then take 2 (drop (base + 2) input) else left in
  left ++ right.

Definition resample_frames (rate channels : Z) (input : Buffer) (frames : list nat) : Buffer :=
  concat (map (fun frame =>
                 concat (replicate (upsample_factor rate) (stereo_frame channels input frame)))
              frames).

Definition resample (rate channels : Z) (input : Buffer) : Buffer :=
  resample_frames rate channels input
    (seq 0 (length input / frame_bytes channels)%nat).

(** The whole frames at the front of [bytes], and what is left over. *)
Definition usable_length (channels : Z) (bytes : Buffer) : nat :=
  (length bytes - length bytes mod frame_bytes channels)%nat.

Section Transform.

(** [Buffer.allocUnsafe] returns memory that is not initialised: its
    content is whatever [uninitialised] holds. *)
Variable uninitialised : nat -> byte.

Definition Buffer_allocUnsafe (size : Z) : Result Buffer :=
  if size <? 0 then Throw BufferRangeError
  else Ok (map uninitialised (seq 0 (Z.to_nat size))).

(** The body of the inner loop (lines 61-65), on the pair
    [(output, outputOffset)]. *)
Definition write_frame (left right : Z) (_ : Z) (st : Buffer * Z) : Result (Buffer * Z) :=
  let '(output, outputOffset) := st in
  output ← writeInt16LE output left outputOffset;
  output ← writeInt16LE output right (outputOffset + 2);
  Ok (output, outputOffset + 4).

(** The body of the outer loop (lines 57-66). *)
Definition convert_frame (this : PcmTransform) (input : Buffer) (upsampleFactor : Z)
    (frame : Z) (st : Buffer * Z) : Result (Buffer * Z) :=
  let base := frame * frameBytes this in
  left ← readInt16LE input base;
  right ← (if inputChannels this =? 2 then readInt16LE input (base + 2) else Ok left);
  for_loop (Z.to_nat upsampleFactor) 0 (write_frame left right) st.

(** [_transform(chunk, _encoding, callback)]: the result is the
    updated transform with the chunks pushed downstream, or the error
    handed to [callback] by the [catch] clause.

    With [frameBytes = 0] the remainder [x % 0] is NaN: every
    comparison with it is false, [inputFrames] is NaN and
    [Buffer.allocUnsafe(NaN)] throws. *)
Definition _transform (this : PcmTransform) (chunk : Buffer)
    : Result (PcmTransform * list Buffer) :=
  let fullChunk :=
    if 0 <? Buffer_length (carry this)
    then Buffer_concat [carry this; chunk] else chunk in
  if frameBytes this =? 0 then Throw BufferRangeError
  else
    let usableLength :=
      Buffer_length fullChunk - Z.rem (Buffer_length fullChunk) (frameBytes this) in
    let this :=
      set_carry this
        (if usableLength <? Buffer_length fullChunk
         then Buffer_subarray_from fullChunk usableLength
         else Buffer_alloc 0) in
    if usableLength =? 0 then Ok (this, [])
    else
      let input := Buffer_subarray fullChunk 0 usableLength in
      let inputFrames := Buffer_length input / frameBytes this in
      let upsampleFactor :=
        if inputSampleRate this =? DISCORD_SAMPLE_RATE then 1 else 2 in
      let outputFrames := inputFrames * upsampleFactor in
      output ← Buffer_allocUnsafe (outputFrames * DISCORD_CHANNELS * PCM_SAMPLE_BYTES);
      '(output, _) ← for_loop (Z.to_nat inputFrames) 0
                        (convert_frame this input upsampleFactor) (output, 0);
      Ok (this, [output]).

(** Writing a list of chunks to the stream, in order: the final state
    and everything pushed downstream. An error from a chunk ends the
    stream. *)
Fixpoint write_chunks (this : PcmTransform) (chunks : list Buffer)
    : Result (PcmTransform * list Buffer) :=
  match chunks with
  | [] => Ok (this, [])
  | chunk :: rest =>
      '(this, pushed) ← _transform this chunk;
      '(this, pushed') ← write_chunks this rest;
      Ok (this, pushed ++ pushed')
  end.

(** The bytes that reach the consumer of a fresh transform fed with
    [chunks]. *)
Definition transform_output (rate channels : Z) (chunks : list Buffer) : Result Buffer :=
  this ← PcmTransform_new rate channels;
  '(_, pushed) ← write_chunks this chunks;
  Ok (Buffer_concat pushed).

(** The carry left in a fresh transform fed with [chunks]. *)
Definition transform_carry (rate channels : Z) (chunks : list Buffer) : Result Buffer :=
  this ← PcmTransform_new rate channels;
  '(this, _) ← write_chunks this chunks;
  Ok (carry this).

End Transform.

(** ** playDiscordPcmStream

    The function is asynchronous: it runs synchronously up to its first
    [await], and from then on only when the event loop hands it an
    event. The embedding is the step machine of that event loop. The
    state holds the variables the closures share ([aborted], [settled],
    [done]), the two promises, the point at which the function is
    suspended, and the calls made on the player and on the three
    streams. *)

Record Params : Type := {
  abortSignal : option bool;
    (* the signal, when one is passed, and its [aborted] flag at call time *)
  param_inputSampleRate : option Z;
  param_inputChannels : option Z;
  maxBufferedMs : option Number
}.

Inductive Effect : Type :=
| PlayerPlay          (* params.player.play(resource) *)
| PlayerStop          (* params.player.stop(true) *)
| PcmStreamUnpipe     (* params.pcmStream.unpipe(pcmTransform) *)
| TransformUnpipe     (* pcmTransform.unpipe(output) *)
| PcmStreamDestroy    (* params.pcmStream.destroy() *)
| TransformDestroy    (* pcmTransform.destroy() *)
| OutputDestroy.      (* output.destroy() *)

#[global] Instance Effect_eq_dec : EqDecision Effect.
Proof. solve_decision. Defined.

Inductive Outcome : Type :=
| Resolved (aborted : bool)     (* the promise resolves with { aborted } *)
| Rejected (e : Error).         (* the promise rejects *)

Inductive Pc : Type :=
| AwaitPlaying     (* line 155: await entersState(player, Playing, ...) *)
| AwaitRace        (* line 158: await Promise.race([pipeDone, abortDone]), or pipeDone *)
| AwaitPipeDone    (* line 159: await pipeDone *)
| AwaitIdle        (* line 164: await entersState(player, Idle, ...) *)
| Returned (o : Outcome).

Record Playback : Type := {
  aborted : bool;                     (* let aborted, line 95 *)
  settled : bool;                     (* let settled, line 96 *)
  done : bool;                        (* let done, line 119 *)
  pipeDone : option (option Error);   (* the value pipeDone resolved with, [{ error? }] *)
  abortDone : option bool;            (* [None]: null; [Some r]: the promise, resolved or not *)
  listening : bool;                   (* abortListener is registered on the signal *)
  pc : Pc;
  effects : list Effect               (* calls made so far, oldest first *)
}.

(** The events the event loop can hand to the closures and to the
    suspended function. *)
Inductive Event : Type :=
| AbortFired                    (* the signal dispatches 'abort' to its listeners *)
| PcmStreamError (e : Error)    (* params.pcmStream emits 'error' *)
| TransformError (e : Error)    (* pcmTransform emits 'error' *)
| OutputError (e : Error)       (* output emits 'error' *)
| OutputFinish                  (* output emits 'finish' *)
| OutputClose                   (* output emits 'close' *)
| PlayingSettled                (* entersState(.., Playing, ..) settled, either way *)
| IdleSettled                   (* entersState(.., Idle, ..) settled, either way *)
| Resume.                       (* the continuation of an await on pipeDone or on the race runs *)

Definition teardown : list Effect :=
  [PcmStreamUnpipe; TransformUnpipe; PcmStreamDestroy; TransformDestroy; OutputDestroy].

(** [cleanup(stopPlayer)], lines 97-110. *)
Definition cleanup (stopPlayer : bool) (s : Playback) : Playback :=
  if settled s then s
  else
    {| aborted := aborted s;
       settled := true;
       done := done s;
       pipeDone := pipeDone s;
       abortDone := abortDone s;
       listening := listening s;
       pc := pc s;
       effects := effects s ++ (if stopPlayer then [PlayerStop] else []) ++ teardown |}.

Definition set_aborted (s : Playback) : Playback :=
  {| aborted := true;
     settled := settled s;
     done := done s;
     pipeDone := pipeDone s;
     abortDone := abortDone s;
     listening := listening s;
     pc := pc s;
     effects := effects s |}.

(** [abortListener], lines 112-115. *)
Definition abortListener (s : Playback) : Playback :=
  cleanup true (set_aborted s).

(** The listener of [abortDone], lines 141-148; [{ once: true }] removes
    it when it has run. *)
Definition abortDone_listener (s : Playback) : Playback :=
  match abortDone s with
  | Some false =>
      {| aborted := true;
         settled := settled s;
         done := done s;
         pipeDone := pipeDone s;
         abortDone := Some true;
         listening := listening s;
         pc := pc s;
         effects := effects s |}
  | _ => s
  end.

(** [settle(error)], lines 120-126. *)
Definition settle (error : option Error) (s : Playback) : Playback :=
  if done s then s
  else
    {| aborted := aborted s;
       settled := settled s;
       done := true;
       pipeDone := Some error;
       abortDone := abortDone s;
       listening := listening s;
       pc := pc s;
       effects := effects s |}.

Definition set_pc (p : Pc) (s : Playback) : Playback :=
  {| aborted := aborted s;
     settled := settled s;
     done := done s;
     pipeDone := pipeDone s;
     abortDone := abortDone s;
     listening := listening s;
     pc := p;
     effects := effects s |}.

(** The [finally] clause, lines 170-173, and the settlement of the
    promise the function returned. *)
Definition finally (o : Outcome) (s : Playback) : Playback :=
  let s :=
    {| aborted := aborted s;
       settled := settled s;
       done := done s;
       pipeDone := pipeDone s;
       abortDone := abortDone s;
       listening := false;
       pc := pc s;
       effects := effects s |} in
  set_pc (Returned o) (cleanup false s).

(** Lines 83-87: the input format, with its defaults, and the transform
    built for it. *)
Definition create_transform (params : Params) : Result PcmTransform :=
  let inputSampleRate := default 24000 (param_inputSampleRate params) in
  let inputChannels := default 1 (param_inputChannels params) in
  PcmTransform_new inputSampleRate inputChannels.

(** [new PassThrough({ highWaterMark })], line 88: the stream
    constructor of Node refuses a [highWaterMark] that is not a
    non-negative integer, NaN and the infinities included. *)
Definition PassThrough_new (highWaterMark : Number) : Result Number :=
  if negb (Number_isInteger highWaterMark) || SFltb highWaterMark (Number_of_Z 0)
  then Throw InvalidArgValue
  else Ok highWaterMark.

Arguments PassThrough_new : simpl never.

(** Lines 85 and 88: the output stream, built with the capacity that
    [maxBufferedMs] gives. *)
Definition create_output (params : Params) : Result Number :=
  PassThrough_new (resolveMaxBufferedBytes (maxBufferedMs params)).

(** The synchronous part of the call, lines 83-155. A throw of one of
    the two constructors is outside the [try]: the promise rejects and
    nothing else has happened. [createAudioResource], the registration
    of the listeners, the two [pipe] calls and [player.play] are taken
    to return normally. *)
Definition playDiscordPcmStream (params : Params) : Playback :=
  let maxBufferedBytes := resolveMaxBufferedBytes (maxBufferedMs params) in
  match create_transform params with
  | Throw e =>
      {| aborted := false; settled := false; done := false; pipeDone := None;
         abortDone := None; listening := false;
         pc := Returned (Rejected e); effects := [] |}
  | Ok pcmTransform =>
  match PassThrough_new maxBufferedBytes with
  | Throw e =>
      {| aborted := false; settled := false; done := false; pipeDone := None;
         abortDone := None; listening := false;
         pc := Returned (Rejected e); effects := [] |}
  | Ok output =>
      let s :=
        {| aborted := match abortSignal params with Some true => true | _ => false end;
           settled := false;
           done := false;
           pipeDone := None;
           abortDone := match abortSignal params with Some _ => Some false | None => None end;
           listening := match abortSignal params with Some _ => true | None => false end;
           pc := AwaitPlaying;
           effects := [] |} in
      if negb (aborted s)
      then
        {| aborted := aborted s; settled := settled s; done := done s;
           pipeDone := pipeDone s; abortDone := abortDone s; listening := listening s;
           pc := AwaitPlaying; effects := effects s ++ [PlayerPlay] |}
      else finally (Resolved (aborted s)) s
  end
  end.

(** The race of line 158 has a winner. *)
Definition race_settled (s : Playback) : bool :=
  match abortDone s with
  | Some r => done s || r
  | None => done s
  end.

(** One turn of the event loop. *)
Definition step (s : Playback) (ev : Event) : Playback :=
  match ev with
  | AbortFired =>
      abortDone_listener (if listening s then abortListener s else s)
  | PcmStreamError e | TransformError e | OutputError e => settle (Some e) s
  | OutputFinish => settle None s
  | OutputClose => if aborted s then settle None s else s
  | PlayingSettled =>
      match pc s with
      | AwaitPlaying => set_pc AwaitRace s
      | _ => s
      end
  | Resume =>
      match pc s with
      | AwaitRace => if race_settled s then set_pc AwaitPipeDone s else s
      | AwaitPipeDone =>
          match pipeDone s with
          | None => s
          | Some error =>
              match error with
              | Some e =>
                  if negb (aborted s) then finally (Rejected e) s
                  else finally (Resolved (aborted s)) s
              | None =>
                  if negb (aborted s) then set_pc AwaitIdle s
                  else finally (Resolved (aborted s)) s
              end
          end
      | _ => s
      end
  | IdleSettled =>
      match pc s with
      | AwaitIdle => finally (Resolved (aborted s)) s
      | _ => s
      end
  end.

Definition run_from (s : Playback) (events : list Event) : Playback :=
  fold_left step events s.

Definition run (params : Params) (events : list Event) : Playback :=
  run_from (playDiscordPcmStream params) events.

Definition pending (s : Playback) : bool :=
  match pc s with Returned _ => false | _ => true end.

Definition calls (e : Effect) (s : Playback) : nat :=
  length (filter (fun e' => e' = e) (effects s)).

(** What the event loop still owes a call whose teardown has run: the
    'close' of the destroyed output, the two timers of [entersState] and
    the continuations. *)
Definition drain : list Event :=
  [OutputClose; PlayingSettled; Resume; Resume; IdleSettled].

(** The calls made so far: [play] at most once, and the body of
    [cleanup] once [settled] is set, with or without [stop]. *)
Definition effects_shape (played stopped : bool) (s : Playback) : Prop :=
  effects s
  = (if played then [PlayerPlay] else [])
    ++ (if settled s then (if stopped then [PlayerStop] else []) ++ teardown else []).

(** What every reachable state satisfies. *)
Definition lifecycle_inv (s : Playback) : Prop :=
  exists played stopped : bool,
    effects_shape played stopped s /\
    (stopped = true -> aborted s = true /\ settled s = true) /\
    (pending s = true -> settled s = true -> stopped = true) /\
    (pending s = true -> played = true) /\
    (pending s = false -> listening s = false) /\
    (pc s = Returned (Resolved false) -> stopped = false) /\
    (forall b, pc s = Returned (Resolved b) -> settled s = true) /\
    (done s = false <-> pipeDone s = None).

(** A call made with a signal keeps its two listeners while it is
    suspended. *)
Definition signal_inv (s : Playback) : Prop :=
  pending s = true -> listening s = true /\ abortDone s <> None.

(** The signal has fired while the call was suspended. *)
Definition abort_observed (s : Playback) : Prop :=
  aborted s = true /\
  abortDone s = Some true /\
  calls PlayerPlay s = 1%nat /\
  calls PlayerStop s = 1%nat /\
  (pending s = true \/ pc s = Returned (Resolved true)).

(** The call returned before it started playback. *)
Definition returned_unplayed (s : Playback) : Prop :=
  pc s = Returned (Resolved true) /\
  listening s = false /\
  effects s = teardown.

(** The error an event carries, when it is the 'error' of one of the
    three streams (the listeners of lines 127-129). *)
Definition stream_error (ev : Event) : option Error :=
  match ev with
  | PcmStreamError e | TransformError e | OutputError e => Some e
  | _ => None
  end.

(** The events that complete a suspended call when nothing goes wrong:
    the output finishes, the two [entersState] timers settle and the
    continuations run. *)
Definition completion : list Event :=
  [OutputFinish; PlayingSettled; Resume; Resume; IdleSettled].

(** Events that neither settle the pipe nor abort the call. *)
Definition quiet (ev : Event) : bool :=
  match ev with
  | OutputClose | PlayingSettled | IdleSettled | Resume => true
  | _ => false
  end.

(** The call is suspended on a pipe that has not settled. *)
Definition waiting (s : Playback) : Prop :=
  aborted s = false /\ done s = false /\
  (abortDone s = None \/ abortDone s = Some false) /\
  (pc s = AwaitPlaying \/ pc s = AwaitRace).

(** What the events handled so far say about the state. *)
Definition trace_inv (events : list Event) (s : Playback) : Prop :=
  (pipeDone s = Some None -> aborted s = true \/ In OutputFinish events) /\
  (forall e, pipeDone s = Some (Some e) ->
     exists ev, In ev events /\ stream_error ev = Some e) /\
  (pc s = AwaitRace \/ pc s = AwaitPipeDone \/ pc s = AwaitIdle ->
     In PlayingSettled events) /\
  (pc s = AwaitIdle -> pipeDone s = Some None) /\
  (pc s = Returned (Resolved false) ->
     In OutputFinish events /\ In PlayingSettled events /\ In IdleSettled events) /\
  (forall e, pc s = Returned (Rejected e) ->
     effects s = [] \/
     (effects s = PlayerPlay :: teardown /\
      exists ev, In ev events /\ stream_error ev = Some e)).

(** ** Streaming delivery controller

    [textToSpeechWithFallback] belongs to the TTS module ([tts.ts]). The
    definitions below follow sections 3, 4.4 and 6 of the specification
    and the group "streaming plumbing" of the module's test suite
    ([tts.test.ts]). *)

Inductive Delivery : Type := stream | buffered.

Inductive ErrorKind : Type := UnsupportedOrTimedOut | ProviderError.

Record StreamPreferences : Type := {
  enabled : bool;
  timeoutMs : Z;
  fallbackToBuffered : bool
}.

Record DeliveryRequest : Type := {
  text : string;
  sessionId : string;
  stream_preferences : StreamPreferences
}.

Inductive DeliveryResult : Type :=
| StreamSuccess (provider : string) (audioByteSource : list byte)
| BufferedSuccess (provider : string) (audioLocation : string)
    (outputFormat : string) (voiceCompatible : bool)
| Failure (errorKind : ErrorKind) (message : string).

Record TaggedResult : Type := {
  result : DeliveryResult;
  delivery : Delivery;
  fallbackFromError : option string
}.

(** The speech provider client, an external collaborator: what its
    buffered synthesis answers, what its streaming synthesis answers,
    and after how many milliseconds ([None]: it never does). *)
Inductive BufferedReply : Type :=
| BufferedOk (audioLocation outputFormat : string) (voiceCompatible : bool)
| BufferedError (message : string).

Inductive StreamingReply : Type :=
| StreamingOk (audioByteSource : list byte)
| StreamingError (message : string).

Record ProviderClient : Type := {
  provider_name : string;
  supportsStreaming : bool;
  synthesizeBuffered : string -> BufferedReply;
  synthesizeStreaming : string -> StreamingReply;
  streamingLatencyMs : string -> option Z
}.

Inductive ClientCall : Type :=
| CallSynthesizeBuffered
| CallSynthesizeStreaming
| StartTimer (ms : Z).

Definition is_timer (c : ClientCall) : bool :=
  match c with StartTimer _ => true | _ => false end.

Definition is_success (r : DeliveryResult) : bool :=
  match r with Failure _ _ => false | _ => true end.

(** Modelled from the spec: the streaming attempt of [tts.ts], a race
    of the provider's streaming call against a timer of the configured
    duration (spec 4.4, step 2). The reason reported for a lost race is
    the one the test "falls back to buffered output when stream attempt
    times out" expects. The reason reported for a failure of the
    provider is the provider's message, or a fixed text when the
    provider gives none: a failure reason is never empty (spec 8). *)
Definition streaming_attempt (client : ProviderClient) (req : DeliveryRequest)
    : string + list byte :=
  match streamingLatencyMs client (text req) with
  | Some latency =>
      if latency <? timeoutMs (stream_preferences req)
      then
        match synthesizeStreaming client (text req) with
        | StreamingOk source => inr source
        | StreamingError message =>
            inl (if (message =? EmptyString)%string
                 then "streaming failed"%string else message)
        end
      else inl "request timed out"%string
  | None => inl "request timed out"%string
  end.

(** Modelled from the spec: the buffered delivery of [tts.ts], which
    delegates to the provider client and tags the result
    [delivery = buffered] (spec 4.4, step 1). *)
Definition buffered_delivery (client : ProviderClient) (req : DeliveryRequest)
    (fallbackFrom : option string) : TaggedResult :=
  {| result :=
       match synthesizeBuffered client (text req) with
       | BufferedOk location format voice =>
           BufferedSuccess (provider_name client) location format voice
       | BufferedError message => Failure ProviderError message
       end;
     delivery := buffered;
     fallbackFromError := fallbackFrom |}.

(** Modelled from the spec: [textToSpeechWithFallback] of [tts.ts], the
    decision algorithm of spec 4.4. Streaming that is not requested is
    delivered buffered. A provider without streaming support never
    enters the timer race: with fallback enabled it is delivered
    buffered (steps 1 and 3), with fallback disabled the result is the
    failure tagged [delivery = stream] that the test "returns
    unsupported-provider error when stream fallback is disabled"
    expects. Otherwise the streaming attempt decides (step 2). The
    second component lists the calls made on the client and the timers
    started. *)
Definition textToSpeechWithFallback (client : ProviderClient) (req : DeliveryRequest)
    : TaggedResult * list ClientCall :=
  let prefs := stream_preferences req in
  if negb (enabled prefs)
  then (buffered_delivery client req None, [CallSynthesizeBuffered])
  else if negb (supportsStreaming client)
  then
    if fallbackToBuffered prefs
    then (buffered_delivery client req None, [CallSynthesizeBuffered])
    else
      ({| result :=
            Failure UnsupportedOrTimedOut
              ("streaming unsupported for provider " ++ provider_name client)%string;
          delivery := stream;
          fallbackFromError := None |}, [])
  else
    match streaming_attempt client req with
    | inr source =>
        ({| result := StreamSuccess (provider_name client) source;
            delivery := stream;
            fallbackFromError := None |},
         [StartTimer (timeoutMs prefs); CallSynthesizeStreaming])
    | inl reason =>
        if fallbackToBuffered prefs
        then (buffered_delivery client req (Some reason),
              [StartTimer (timeoutMs prefs); CallSynthesizeStreaming; CallSynthesizeBuffered])
        else
          ({| result := Failure UnsupportedOrTimedOut reason;
              delivery := stream;
              fallbackFromError := None |},
           [StartTimer (timeoutMs prefs); CallSynthesizeStreaming])
    end.



Definition edge_provider : ProviderClient :=
  {| provider_name := "edge";
     supportsStreaming := false;
     synthesizeBuffered := fun _ => BufferedOk "/tmp/voice.mp3" "mp3" false;
     synthesizeStreaming := fun _ => StreamingError "unreachable";
     streamingLatencyMs := fun _ => None |}.

Definition hello (fallback : bool) : DeliveryRequest :=
  {| text := "hello"; sessionId := "c1";
     stream_preferences := {| enabled := true; timeoutMs := 1; fallbackToBuffered := fallback |} |}.


(** ** Gateway methods [tts.convert] and [tts.setProvider]

    The handlers of the gateway ([ttsHandlers]). A handler reads the
    request parameters, a JavaScript object, calls into the TTS module
    and answers through [respond], which returns normally. The
    embedding returns the calls a handler makes, in order. *)

(** A JavaScript number: a finite value (every double is a rational),
    NaN or an infinity. *)
Inductive JsNumber : Type :=
| Finite (q : Q)
| NaN
| PosInfinity
| NegInfinity.

(** A parameter value, as [typeof] tells them apart. *)
Inductive JsValue : Type :=
| JsUndefined
| JsNull
| JsBoolean (b : bool)
| JsNum (n : JsNumber)
| JsString (s : string)
| JsObject.

Definition Number_isFinite (n : JsNumber) : bool :=
  match n with Finite _ => true | _ => false end.

(** [x < y] on numbers: false whenever NaN is involved. *)
Definition js_lt (x y : JsNumber) : bool :=
  match x, y with
  | NaN, _ | _, NaN => false
  | Finite a, Finite b => negb (Qle_bool b a)
  | NegInfinity, NegInfinity => false
  | NegInfinity, _ => true
  | _, NegInfinity => false
  | PosInfinity, _ => false
  | Finite _, PosInfinity => true
  end.

(** [s || undefined] on a string: the empty string is falsy. *)
Definition or_undefined (s : string) : option string :=
  if (s =? EmptyString)%string then None else Some s.

(** [x != null] and [x !== undefined] on a value that is absent or
    present. *)
Definition defined {A} (x : option A) : bool :=
  match x with Some _ => true | None => false end.

(** [Array.prototype.includes] on an array of strings. *)
Definition includes (array : list string) (s : string) : bool :=
  existsb (String.eqb s) array.

Inductive ErrorCode : Type := INVALID_REQUEST | UNAVAILABLE.

Record ErrorShape : Type := errorShape {
  code : ErrorCode;
  message : string
}.

(** The [openai] member of [TtsDirectiveOverrides], as the handler
    builds it: a property is present when its value is. *)
Record OpenAiOverrides : Type := {
  instructions : option string;
  stream_override : option bool;
  responseFormat : option string;
  streamFormat : option string;
  speed : option JsNumber
}.

(** What [textToSpeech] resolves with, as far as the handler reads it. *)
Record TtsResult : Type := {
  success : bool;
  audioPath : option string;
  error : option string;
  provider : option string;
  outputFormat : option string;
  voiceCompatible : option bool
}.

(** The payload of a successful response. *)
Inductive Payload : Type :=
| ConvertPayload (audioPath provider outputFormat : option string)
    (voiceCompatible : option bool)
| ProviderPayload (provider : string).

Section Gateway.

(** The collaborators of the handlers: the string methods and
    [Number.parseFloat] of the language, the configuration loader, the
    TTS module and the log formatter. A collaborator that can throw
    returns the exception on the left. *)
Variable trim : string -> string.
Variable toLowerCase : string -> string.
Variable parseFloat : string -> JsNumber.
Variables Config TtsConfig Exn : Type.
Variable loadConfig : unit -> Exn + Config.
Variable formatForLog : Exn -> string.
Variable OPENAI_TTS_RESPONSE_FORMATS : list string.
Variable OPENAI_TTS_STREAM_FORMATS : list string.

(** The argument of [textToSpeech]. *)
Record TextToSpeechArgs : Type := {
  args_text : string;
  cfg : Config;
  channel : option string;
  overrides : option OpenAiOverrides
}.

Variable textToSpeech : TextToSpeechArgs -> Exn + TtsResult.
Variable resolveTtsConfig : Config -> Exn + TtsConfig.
Variable resolveTtsPrefsPath : TtsConfig -> Exn + string.
Variable setTtsProvider : string -> string -> option Exn.

Inductive Call : Type :=
| CallTextToSpeech (args : TextToSpeechArgs)
| CallSetTtsProvider (prefsPath provider : string)
| CallRespond (ok : bool) (payload : option Payload) (error : option ErrorShape).

(** [respond(false, undefined, errorShape(code, message))]. *)
Definition respond_error (code : ErrorCode) (message : string) : Call :=
  CallRespond false None (Some (errorShape code message)).

(** The handler of [tts.convert]. *)
Definition tts_convert (params : string -> JsValue) : list Call :=
  let text :=
    match params "text"%string with JsString s => trim s | _ => EmptyString end in
  if (text =? EmptyString)%string
  then [respond_error INVALID_REQUEST "tts.convert requires text"]
  else
    match loadConfig tt with
    | inl err => [respond_error UNAVAILABLE (formatForLog err)]
    | inr cfg =>
      let channel :=
        match params "channel"%string with
        | JsString s => or_undefined (trim s) | _ => None
        end in
      let instructions :=
        match params "instructions"%string with
        | JsString s => or_undefined (trim s) | _ => None
        end in
      let stream :=
        match params "stream"%string with JsBoolean b => Some b | _ => None end in
      let responseFormatRaw :=
        match params "responseFormat"%string with
        | JsString s => Some (toLowerCase (trim s)) | _ => None
        end in
      if match responseFormatRaw with
         | Some raw => negb (includes OPENAI_TTS_RESPONSE_FORMATS raw)
         | None => false
         end
      then [respond_error INVALID_REQUEST
              ("Invalid responseFormat. Use one of: "
               ++ String.concat ", " OPENAI_TTS_RESPONSE_FORMATS ++ ".")%string]
      else
      let responseFormat := responseFormatRaw in
      let streamFormatRaw :=
        match params "streamFormat"%string with
        | JsString s => Some (toLowerCase (trim s)) | _ => None
        end in
      if match streamFormatRaw with
         | Some raw => negb (includes OPENAI_TTS_STREAM_FORMATS raw)
         | None => false
         end
      then [respond_error INVALID_REQUEST
              ("Invalid streamFormat. Use one of: "
               ++ String.concat ", " OPENAI_TTS_STREAM_FORMATS ++ ".")%string]
      else
      let streamFormat := streamFormatRaw in
      let speedRaw :=
        match params "speed"%string with
        | JsNum n => Some n
        | JsString s => Some (parseFloat s)
        | _ => None
        end in
      if match speedRaw with
         | Some n =>
             negb (Number_isFinite n) || js_lt n (Finite (1 # 4)) || js_lt (Finite 4) n
         | None => false
         end
      then [respond_error INVALID_REQUEST "Invalid speed. Use a number between 0.25 and 4.0."]
      else
      let overrides :=
        if defined instructions || defined stream || defined responseFormat
           || defined streamFormat || defined speedRaw
        then Some {| instructions := instructions;
                     stream_override := stream;
                     responseFormat := responseFormat;
                     streamFormat := streamFormat;
                     speed := speedRaw |}
        else None in
      let args :=
        {| args_text := text; cfg := cfg; channel := channel; overrides := overrides |} in
      CallTextToSpeech args ::
      match textToSpeech args with
      | inl err => [respond_error UNAVAILABLE (formatForLog err)]
      | inr result =>
          if success result
             && match audioPath result with
                | Some path => negb (path =? EmptyString)%string
                | None => false
                end
          then [CallRespond true
                  (Some (ConvertPayload (audioPath result) (provider result)
                           (outputFormat result) (voiceCompatible result)))
                  None]
          else [respond_error UNAVAILABLE
                  (default "TTS conversion failed"%string (error result))]
      end
    end.

(** The handler of [tts.setProvider]. *)
Definition tts_setProvider (params : string -> JsValue) : list Call :=
  let provider :=
    match params "provider"%string with JsString s => trim s | _ => EmptyString end in
  if negb (provider =? "openai")%string && negb (provider =? "elevenlabs")%string
     && negb (provider =? "edge")%string
  then [respond_error INVALID_REQUEST "Invalid provider. Use openai, elevenlabs, or edge."]
  else
    match loadConfig tt with
    | inl err => [respond_error UNAVAILABLE (formatForLog err)]
    | inr cfg =>
      match resolveTtsConfig cfg with
      | inl err => [respond_error UNAVAILABLE (formatForLog err)]
      | inr config =>
        match resolveTtsPrefsPath config with
        | inl err => [respond_error UNAVAILABLE (formatForLog err)]
        | inr prefsPath =>
          CallSetTtsProvider prefsPath provider ::
          match setTtsProvider prefsPath provider with
          | Some err => [respond_error UNAVAILABLE (formatForLog err)]
          | None => [CallRespond true (Some (ProviderPayload provider)) None]
          end
        end
      end
    end.

End Gateway.

Arguments CallTextToSpeech {Config}.
Arguments CallSetTtsProvider {Config}.
Arguments CallRespond {Config}.
Arguments respond_error {Config}.
Arguments args_text {Config}.
Arguments cfg {Config}.
Arguments channel {Config}.
Arguments overrides {Config}.

(** A gateway whose TTS module always succeeds, for the examples. *)
Definition example_params (key : string) : JsValue :=
  if (key =? "text")%string then JsString "hello"
  else if (key =? "speed")%string then JsNum (Finite 2)
  else if (key =? "responseFormat")%string then JsString "mp3"
  else JsUndefined.

Definition example_textToSpeech (args : TextToSpeechArgs unit) : string + TtsResult :=
  inr {| success := true; audioPath := Some "/tmp/tts.mp3"%string; error := None;
         provider := Some "openai"%string; outputFormat := Some "mp3"%string;
         voiceCompatible := Some false |}.

Definition example_convert (params : string -> JsValue) : list (Call unit) :=
  tts_convert (fun s => s) (fun s => s) (fun _ => NaN) unit string
    (fun _ => inr tt) (fun err => err)
    ["mp3"; "opus"; "aac"; "flac"; "wav"; "pcm"]%string ["audio"; "sse"]%string
    example_textToSpeech params.


(** * Properties

    ** Bytes and sixteen bit samples *)

Lemma byte_to_Z_range b : 0 <= byte_to_Z b < 256.
Proof.
  unfold byte_to_Z. pose proof (Byte.to_N_bounded b). lia.
Qed.

Lemma Z_to_byte_mod z b : z mod 256 = byte_to_Z b -> Z_to_byte z = b.
Proof.
  intros H. unfold Z_to_byte.
  change 255 with (Z.ones 8). rewrite Z.land_ones by lia.
  change (2 ^ 8) with 256. rewrite H. unfold byte_to_Z.
  rewrite N2Z.id, Byte.of_to_N. reflexivity.
Qed.

Lemma int16_of_cases first last :
  let val := byte_to_Z first + byte_to_Z last * 256 in
  (val < 32768 /\ int16_of first last = val) \/
  (32768 <= val /\ int16_of first last = val - 65536).
Proof.
  intros val. unfold int16_of. change (2 ^ 8) with 256. change (2 ^ 16) with 65536.
  fold val.
  pose proof (byte_to_Z_range first). pose proof (byte_to_Z_range last).
  destruct (Z.testbit val 15) eqn:E.
  - right. split; [|reflexivity].
    apply Z.testbit_true in E; [|lia]. change (2 ^ 15) with 32768 in E.
    destruct (Z_lt_le_dec val 32768); [|assumption].
    rewrite Z.div_small in E by lia. discriminate.
  - left. split; [|reflexivity].
    destruct (Z_lt_le_dec val 32768); [assumption|].
    assert (Z.testbit val 15 = true); [|congruence].
    apply Z.testbit_true; [lia|]. change (2 ^ 15) with 32768.
    assert (val / 32768 = 1) as -> by (Z.div_mod_to_equations; lia).
    reflexivity.
Qed.

Lemma int16_of_range first last : - 2 ^ 15 <= int16_of first last <= 2 ^ 15 - 1.
Proof.
  pose proof (byte_to_Z_range first). pose proof (byte_to_Z_range last).
  change (2 ^ 15) with 32768.
  destruct (int16_of_cases first last) as [[? ->]|[? ->]]; lia.
Qed.

Lemma int16_of_low first last : Z_to_byte (int16_of first last) = first.
Proof.
  pose proof (byte_to_Z_range first). pose proof (byte_to_Z_range last).
  apply Z_to_byte_mod.
  destruct (int16_of_cases first last) as [[? ->]|[? ->]];
    Z.div_mod_to_equations; lia.
Qed.

Lemma int16_of_high first last : Z_to_byte (Z.shiftr (int16_of first last) 8) = last.
Proof.
  pose proof (byte_to_Z_range first). pose proof (byte_to_Z_range last).
  apply Z_to_byte_mod. rewrite Z.shiftr_div_pow2 by lia. change (2 ^ 8) with 256.
  destruct (int16_of_cases first last) as [[? ->]|[? ->]];
    Z.div_mod_to_equations; lia.
Qed.

Lemma write_pair_app {A} (pre rest : list A) (x y : A) (o : nat) :
  length pre = o -> (2 <= length rest)%nat ->
  <[S o := y]> (<[o := x]> (pre ++ rest)) = pre ++ x :: y :: drop 2 rest.
Proof.
  intros <- Hlen.
  destruct rest as [|a [|b rest]]; simpl in Hlen; try lia.
  rewrite insert_app_r_alt by lia. rewrite Nat.sub_diag. simpl.
  rewrite insert_app_r_alt by lia.
  replace (S (length pre) - length pre)%nat with 1%nat by lia. reflexivity.
Qed.

Lemma writeInt16LE_app (pre rest : Buffer) first last :
  (2 <= length rest)%nat ->
  writeInt16LE (pre ++ rest) (int16_of first last) (Buffer_length pre)
  = Ok (pre ++ first :: last :: drop 2 rest).
Proof.
  intros Hlen. unfold writeInt16LE, Buffer_length.
  pose proof (int16_of_range first last) as Hr.
  rewrite length_app.
  repeat match goal with
  | |- context [?a <? ?b] => destruct (Z.ltb_spec a b); try lia
  end. simpl.
  rewrite int16_of_low, int16_of_high.
  replace (Z.to_nat (Z.of_nat (length pre) + 1)) with (S (length pre)) by lia.
  rewrite Nat2Z.id. f_equal. apply write_pair_app; [reflexivity | lia].
Qed.

(** ** The transform *)

Section TransformFacts.

Variable uninitialised : nat -> byte.

Lemma read_pair (input : Buffer) (base : nat) :
  (base + 2 <= length input)%nat ->
  exists first last,
    take 2 (drop base input) = [first; last] /\
    readInt16LE input (Z.of_nat base) = Ok (int16_of first last).
Proof.
  intros Hlen.
  destruct (lookup_lt_is_Some_2 input base) as [first Hf]; [lia|].
  destruct (lookup_lt_is_Some_2 input (S base)) as [last Hl]; [lia|].
  exists first, last. split.
  - rewrite (drop_S _ _ _ Hf), (drop_S _ _ _ Hl). reflexivity.
  - unfold readInt16LE.
    destruct (Z.ltb_spec (Z.of_nat base) 0); [lia|].
    rewrite Nat2Z.id.
    replace (Z.to_nat (Z.of_nat base + 1)) with (S base) by lia.
    rewrite Hf, Hl. reflexivity.
Qed.

Lemma write_frame_app (pre rest : Buffer) (j : Z) l0 l1 r0 r1 :
  (4 <= length rest)%nat ->
  write_frame (int16_of l0 l1) (int16_of r0 r1) j (pre ++ rest, Buffer_length pre)
  = Ok (pre ++ [l0; l1; r0; r1] ++ drop 4 rest, Buffer_length pre + 4).
Proof.
  intros Hlen. unfold write_frame.
  rewrite writeInt16LE_app by lia. cbn [mbind Result_bind].
  replace (pre ++ l0 :: l1 :: drop 2 rest) with ((pre ++ [l0; l1]) ++ drop 2 rest)
    by (rewrite <- app_assoc; reflexivity).
  replace (Buffer_length pre + 2) with (Buffer_length (pre ++ [l0; l1]))
    by (unfold Buffer_length; rewrite length_app; simpl; lia).
  rewrite writeInt16LE_app by (rewrite length_drop; lia).
  cbn [mbind Result_bind]. rewrite drop_drop, <- app_assoc. reflexivity.
Qed.

Lemma inner_loop (n : nat) : forall (pre rest : Buffer) (j : Z) l0 l1 r0 r1,
  (4 * n <= length rest)%nat ->
  for_loop n j (write_frame (int16_of l0 l1) (int16_of r0 r1))
    (pre ++ rest, Buffer_length pre)
  = Ok (pre ++ concat (replicate n [l0; l1; r0; r1]) ++ drop (4 * n) rest,
        Buffer_length pre + 4 * Z.of_nat n).
Proof.
  induction n as [|n IH]; intros pre rest j l0 l1 r0 r1 Hlen.
  - simpl. rewrite Z.add_0_r. reflexivity.
  - cbn [for_loop]. rewrite write_frame_app by lia. cbn [mbind Result_bind].
    rewrite app_assoc.
    replace (Buffer_length pre + 4) with (Buffer_length (pre ++ [l0; l1; r0; r1]))
      by (unfold Buffer_length; rewrite length_app; simpl; lia).
    rewrite IH by (rewrite length_drop; lia).
    rewrite drop_drop. f_equal. f_equal.
    + cbn [replicate concat]. rewrite <- !app_assoc.
      replace (4 + 4 * n)%nat with (4 * S n)%nat by lia. reflexivity.
    + unfold Buffer_length. rewrite length_app. simpl. lia.
Qed.

Lemma stereo_frame_read (this : PcmTransform) (input : Buffer) (frame : nat) :
  0 < inputChannels this ->
  frameBytes this = inputChannels this * PCM_SAMPLE_BYTES ->
  ((frame + 1) * frame_bytes (inputChannels this) <= length input)%nat ->
  exists l0 l1 r0 r1,
    stereo_frame (inputChannels this) input frame = [l0; l1; r0; r1] /\
    readInt16LE input (Z.of_nat frame * frameBytes this) = Ok (int16_of l0 l1) /\
    (if inputChannels this =? 2
     then readInt16LE input (Z.of_nat frame * frameBytes this + 2)
     else Ok (int16_of l0 l1)) = Ok (int16_of r0 r1).
Proof.
  intros Hch Hfb Hlen. unfold stereo_frame, frame_bytes in *. rewrite Hfb.
  unfold PCM_SAMPLE_BYTES in *.
  set (base := (frame * Z.to_nat (inputChannels this * 2))%nat) in *.
  replace (Z.of_nat frame * (inputChannels this * 2)) with (Z.of_nat base) by (subst base; nia).
  destruct (read_pair input base) as (l0 & l1 & Htake & Hread); [subst base; nia|].
  destruct (Z.eqb_spec (inputChannels this) 2) as [E|E].
  - destruct (read_pair input (base + 2)) as (r0 & r1 & Htake' & Hread');
      [subst base; rewrite E in *; nia|].
    exists l0, l1, r0, r1. rewrite Htake, Htake'. split; [reflexivity|].
    split; [assumption|]. rewrite <- Hread'. f_equal. lia.
  - exists l0, l1, l0, l1. rewrite Htake. auto.
Qed.

Lemma convert_frame_app (this : PcmTransform) (input pre rest : Buffer) (f i : nat) :
  0 < inputChannels this ->
  frameBytes this = inputChannels this * PCM_SAMPLE_BYTES ->
  ((i + 1) * frame_bytes (inputChannels this) <= length input)%nat ->
  (4 * f <= length rest)%nat ->
  convert_frame this input (Z.of_nat f) (Z.of_nat i) (pre ++ rest, Buffer_length pre)
  = Ok (pre ++ concat (replicate f (stereo_frame (inputChannels this) input i))
            ++ drop (4 * f) rest,
        Buffer_length pre + 4 * Z.of_nat f).
Proof.
  intros Hch Hfb Hin Hout. unfold convert_frame.
  destruct (stereo_frame_read this input i Hch Hfb Hin) as (l0 & l1 & r0 & r1 & Hsf & Hl & Hr).
  rewrite Hl. cbn [mbind Result_bind]. rewrite Hr. cbn [mbind Result_bind].
  rewrite Nat2Z.id, inner_loop, Hsf by assumption. reflexivity.
Qed.

Lemma outer_loop (this : PcmTransform) (input : Buffer) (rate : Z) (n : nat) :
  forall (i : nat) (pre rest : Buffer),
  0 < inputChannels this ->
  frameBytes this = inputChannels this * PCM_SAMPLE_BYTES ->
  ((i + n) * frame_bytes (inputChannels this) <= length input)%nat ->
  (4 * upsample_factor rate * n <= length rest)%nat ->
  exists off,
  for_loop n (Z.of_nat i)
    (convert_frame this input (Z.of_nat (upsample_factor rate)))
    (pre ++ rest, Buffer_length pre)
  = Ok (pre ++ resample_frames rate (inputChannels this) input (seq i n)
            ++ drop (4 * upsample_factor rate * n) rest, off).
Proof.
  induction n as [|n IH]; intros i pre rest Hch Hfb Hin Hout.
  - eexists. rewrite Nat.mul_0_r. cbn [for_loop seq]. reflexivity.
  - cbn [for_loop]. rewrite convert_frame_app by (try assumption; nia).
    cbn [mbind Result_bind].
    set (f := upsample_factor rate) in *.
    set (fr := concat (replicate f (stereo_frame (inputChannels this) input i))).
    assert (length fr = (4 * f)%nat) as Hfr.
    { subst fr.
      destruct (stereo_frame_read this input i Hch Hfb) as (l0 & l1 & r0 & r1 & -> & _);
        [nia|].
      rewrite length_concat, fmap_replicate, sum_list_replicate. simpl. lia. }
    rewrite app_assoc.
    replace (Buffer_length pre + 4 * Z.of_nat f) with (Buffer_length (pre ++ fr))
      by (unfold Buffer_length; rewrite length_app, Hfr; lia).
    replace (Z.of_nat i + 1) with (Z.of_nat (S i)) by lia.
    destruct (IH (S i) (pre ++ fr) (drop (4 * f) rest))
      as [off ->]; [assumption|assumption|lia|rewrite length_drop; nia|].
    exists off. f_equal. f_equal. rewrite <- !app_assoc. f_equal.
    unfold resample_frames. cbn [seq map concat]. fold f. fold fr.
    rewrite <- app_assoc. do 2 f_equal. rewrite drop_drop. f_equal. lia.
Qed.

Lemma frame_bytes_pos (channels : Z) : 0 < channels -> (2 <= frame_bytes channels)%nat.
Proof. unfold frame_bytes, PCM_SAMPLE_BYTES. lia. Qed.

Lemma frame_bytes_stereo (channels : Z) : channels = 2 -> frame_bytes channels = 4%nat.
Proof. intros ->. reflexivity. Qed.

Lemma usable_length_le channels (bytes : Buffer) :
  (usable_length channels bytes <= length bytes)%nat.
Proof. unfold usable_length. lia. Qed.

Lemma usable_length_frames channels (bytes : Buffer) :
  0 < channels ->
  usable_length channels bytes
  = (length bytes / frame_bytes channels * frame_bytes channels)%nat.
Proof.
  intros Hch. pose proof (frame_bytes_pos _ Hch). unfold usable_length.
  pose proof (Nat.div_mod_eq (length bytes) (frame_bytes channels)). nia.
Qed.

Lemma usable_length_Z (this : PcmTransform) (bytes : Buffer) :
  0 < inputChannels this ->
  frameBytes this = inputChannels this * PCM_SAMPLE_BYTES ->
  Buffer_length bytes - Z.rem (Buffer_length bytes) (frameBytes this)
  = Z.of_nat (usable_length (inputChannels this) bytes).
Proof.
  intros Hch Hfb. pose proof (frame_bytes_pos _ Hch) as Hpos.
  unfold usable_length, Buffer_length.
  assert (frameBytes this = Z.of_nat (frame_bytes (inputChannels this))) as ->
    by (unfold frame_bytes, PCM_SAMPLE_BYTES in *; lia).
  rewrite Z.rem_mod_nonneg by lia. rewrite <- Nat2Z.inj_mod.
  pose proof (Nat.mod_upper_bound (length bytes) (frame_bytes (inputChannels this))).
  pose proof (Nat.Div0.mod_le (length bytes) (frame_bytes (inputChannels this))).
  lia.
Qed.

Lemma relative_index_inside (len i : Z) : 0 <= i <= len -> relative_index len i = i.
Proof.
  intros H. unfold relative_index. destruct (Z.ltb_spec i 0); lia.
Qed.

Lemma subarray_from_drop (buf : Buffer) (n : nat) :
  (n <= length buf)%nat -> Buffer_subarray_from buf (Z.of_nat n) = drop n buf.
Proof.
  intros H. unfold Buffer_subarray_from, Buffer_subarray, Buffer_length.
  rewrite !relative_index_inside by lia. rewrite Nat2Z.id.
  apply take_ge. rewrite length_drop. lia.
Qed.

Lemma subarray_take (buf : Buffer) (n : nat) :
  (n <= length buf)%nat -> Buffer_subarray buf 0 (Z.of_nat n) = take n buf.
Proof.
  intros H. unfold Buffer_subarray, Buffer_length.
  rewrite !relative_index_inside by lia. rewrite Z.sub_0_r, Nat2Z.id. reflexivity.
Qed.

Lemma transform_chunk (this : PcmTransform) (chunk : Buffer) :
  0 < inputChannels this ->
  frameBytes this = inputChannels this * PCM_SAMPLE_BYTES ->
  let full := carry this ++ chunk in
  let usable := usable_length (inputChannels this) full in
  _transform uninitialised this chunk
  = Ok (set_carry this (drop usable full),
        if (usable =? 0)%nat then []
        else [resample (inputSampleRate this) (inputChannels this) (take usable full)]).
Proof.
  intros Hch Hfb full usable. pose proof (frame_bytes_pos _ Hch) as Hpos.
  pose proof (usable_length_le (inputChannels this) full) as Hle. fold usable in Hle.
  unfold _transform.
  assert ((if 0 <? Buffer_length (carry this)
           then Buffer_concat [carry this; chunk] else chunk) = full) as ->.
  { subst full. unfold Buffer_length, Buffer_concat.
    destruct (carry this); simpl; [reflexivity|]. rewrite app_nil_r. reflexivity. }
  destruct (Z.eqb_spec (frameBytes this) 0) as [E|_]; [unfold PCM_SAMPLE_BYTES in *; lia|].
  rewrite usable_length_Z by assumption. fold usable.
  assert ((if Z.of_nat usable <? Buffer_length full
           then Buffer_subarray_from full (Z.of_nat usable)
           else Buffer_alloc 0) = drop usable full) as ->.
  { unfold Buffer_length.
    destruct (Z.ltb_spec (Z.of_nat usable) (Z.of_nat (length full))).
    - apply subarray_from_drop. lia.
    - rewrite drop_ge by lia. reflexivity. }
  destruct (Z.eqb_spec (Z.of_nat usable) 0) as [E|E].
  - destruct (Nat.eqb_spec usable 0); [reflexivity|lia].
  - destruct (Nat.eqb_spec usable 0) as [|_]; [lia|].
    rewrite subarray_take by lia.
    set (this' := set_carry this (drop usable full)).
    change (frameBytes this') with (frameBytes this).
    change (inputSampleRate this') with (inputSampleRate this).
    set (input := take usable full).
    set (fb := frame_bytes (inputChannels this)) in *.
    assert (length input = usable) as Hinput by (subst input; rewrite length_take; lia).
    assert (usable = (length full / fb * fb)%nat) as Husable
      by (apply usable_length_frames; assumption).
    set (frames := (length full / fb)%nat) in *.
    assert (Buffer_length input / frameBytes this = Z.of_nat frames) as ->.
    { unfold Buffer_length. rewrite Hinput, Husable.
      replace (frameBytes this) with (Z.of_nat fb)
        by (subst fb; unfold frame_bytes, PCM_SAMPLE_BYTES in *; lia).
      rewrite Nat2Z.inj_mul, Z.div_mul by lia. reflexivity. }
    assert ((if inputSampleRate this =? DISCORD_SAMPLE_RATE then 1 else 2)
            = Z.of_nat (upsample_factor (inputSampleRate this))) as ->
      by (unfold upsample_factor; destruct (inputSampleRate this =? DISCORD_SAMPLE_RATE);
          reflexivity).
    set (f := upsample_factor (inputSampleRate this)).
    unfold Buffer_allocUnsafe.
    destruct (Z.ltb_spec (Z.of_nat frames * Z.of_nat f * DISCORD_CHANNELS * PCM_SAMPLE_BYTES) 0);
      [unfold DISCORD_CHANNELS, PCM_SAMPLE_BYTES in *; lia|].
    cbn [mbind Result_bind]. rewrite Nat2Z.id.
    set (garbage := map uninitialised _).
    assert (length garbage = (4 * f * frames)%nat) as Hg
      by (subst garbage; rewrite length_map, length_seq;
          unfold DISCORD_CHANNELS, PCM_SAMPLE_BYTES; lia).
    destruct (outer_loop this' input (inputSampleRate this) frames 0 [] garbage)
      as [off Hloop]; [assumption|assumption|simpl; lia|fold f; lia|].
    change (Z.of_nat 0) with 0 in Hloop. change (Buffer_length []) with 0 in Hloop.
    change ([] ++ garbage) with garbage in Hloop. fold f in Hloop.
    rewrite Hloop. cbn [mbind Result_bind app].
    rewrite drop_ge, app_nil_r by lia.
    unfold resample. rewrite Hinput, Husable. fold fb.
    rewrite Nat.div_mul by lia. reflexivity.
Qed.

Lemma stereo_frame_app_l channels (a b : Buffer) (frame : nat) :
  0 < channels ->
  ((frame + 1) * frame_bytes channels <= length a)%nat ->
  stereo_frame channels (a ++ b) frame = stereo_frame channels a frame.
Proof.
  intros Hch Hlen. pose proof (frame_bytes_pos _ Hch) as Hpos.
  unfold stereo_frame.
  assert (forall base, (base + 2 <= length a)%nat ->
            take 2 (drop base (a ++ b)) = take 2 (drop base a)) as Htake.
  { intros base Hb. rewrite drop_app_le by lia. apply take_app_le.
    rewrite length_drop. lia. }
  rewrite (Htake (frame * frame_bytes channels)%nat) by nia.
  destruct (Z.eqb_spec channels 2) as [E|_]; [|reflexivity].
  rewrite Htake; [reflexivity|]. rewrite (frame_bytes_stereo _ E) in *. lia.
Qed.

Lemma stereo_frame_app_r channels (a b : Buffer) (k frame : nat) :
  length a = (k * frame_bytes channels)%nat ->
  stereo_frame channels (a ++ b) (k + frame) = stereo_frame channels b frame.
Proof.
  intros Hlen. unfold stereo_frame.
  assert (forall off, drop ((k + frame) * frame_bytes channels + off) (a ++ b)
                      = drop (frame * frame_bytes channels + off) b) as Hdrop.
  { intros off. rewrite drop_app_ge by nia. f_equal. nia. }
  pose proof (Hdrop 0%nat) as H0. rewrite !Nat.add_0_r in H0.
  rewrite H0, Hdrop. reflexivity.
Qed.

Lemma resample_app rate channels (a b : Buffer) :
  0 < channels ->
  (length a mod frame_bytes channels = 0)%nat ->
  resample rate channels (a ++ b) = resample rate channels a ++ resample rate channels b.
Proof.
  intros Hch Ha. pose proof (frame_bytes_pos _ Hch) as Hpos.
  set (fb := frame_bytes channels) in *.
  assert (length a = (length a / fb * fb)%nat) as Hk
    by (pose proof (Nat.div_mod_eq (length a) fb); nia).
  set (k := (length a / fb)%nat) in *.
  unfold resample. fold fb.
  replace (length (a ++ b) / fb)%nat with (k + length b / fb)%nat.
  2:{ rewrite length_app, Hk, Nat.div_add_l by lia. reflexivity. }
  unfold resample_frames. rewrite seq_app, map_app, concat_app. f_equal.
  - f_equal. apply map_ext_in. intros frame Hin. apply in_seq in Hin.
    rewrite stereo_frame_app_l; [reflexivity|assumption|fold fb; nia].
  - f_equal. replace (0 + k)%nat with (k + 0)%nat by lia.
    rewrite <- (fmap_add_seq k 0).
    change (map ?g (?h <$> ?l)) with (map g (map h l)). rewrite map_map.
    apply map_ext. intros frame.
    rewrite stereo_frame_app_r by (fold fb; exact Hk). reflexivity.
Qed.

Lemma length_resample rate channels (input : Buffer) :
  0 < channels ->
  length (resample rate channels input)
  = (length input / frame_bytes channels * upsample_factor rate * 4)%nat.
Proof.
  intros Hch. pose proof (frame_bytes_pos _ Hch) as Hpos.
  unfold resample, resample_frames.
  set (frames := (length input / frame_bytes channels)%nat).
  assert (forall frame, (frame < frames)%nat ->
            length (stereo_frame channels input frame) = 4%nat) as Hframe.
  { intros frame Hlt. unfold stereo_frame.
    pose proof (Nat.div_mod_eq (length input) (frame_bytes channels)).
    fold frames in H.
    destruct (Z.eqb_spec channels 2) as [E|_].
    - rewrite (frame_bytes_stereo _ E) in *.
      rewrite length_app, !length_take, !length_drop. nia.
    - rewrite length_app, !length_take, !length_drop. nia. }
  assert (forall n i, (i + n <= frames)%nat ->
            length (concat (map (fun frame =>
                      concat (replicate (upsample_factor rate)
                                (stereo_frame channels input frame))) (seq i n)))
            = (n * upsample_factor rate * 4)%nat) as Hall.
  { induction n as [|n IH]; intros i Hi; [reflexivity|].
    cbn [seq map concat]. rewrite length_app, IH by lia.
    rewrite length_concat, fmap_replicate, sum_list_replicate, Hframe by lia. lia. }
  apply Hall. lia.
Qed.

Lemma usable_length_mod channels (bytes : Buffer) :
  0 < channels ->
  (usable_length channels bytes mod frame_bytes channels = 0)%nat.
Proof.
  intros Hch. rewrite usable_length_frames by assumption. apply Nat.Div0.mod_mul.
Qed.

Lemma usable_length_app channels (a b : Buffer) :
  0 < channels ->
  (length a mod frame_bytes channels = 0)%nat ->
  usable_length channels (a ++ b) = (length a + usable_length channels b)%nat.
Proof.
  intros Hch Ha. pose proof (frame_bytes_pos _ Hch) as Hpos.
  unfold usable_length. rewrite length_app.
  rewrite Nat.Div0.add_mod, Ha, Nat.add_0_l, Nat.Div0.mod_mod.
  pose proof (Nat.Div0.mod_le (length b) (frame_bytes channels)). lia.
Qed.

Lemma usable_length_small channels (bytes : Buffer) :
  (length bytes < frame_bytes channels)%nat -> usable_length channels bytes = 0%nat.
Proof.
  intros H. unfold usable_length. rewrite Nat.mod_small by assumption. lia.
Qed.

Lemma length_drop_usable channels (bytes : Buffer) :
  0 < channels ->
  (length (drop (usable_length channels bytes) bytes) < frame_bytes channels)%nat.
Proof.
  intros Hch. pose proof (frame_bytes_pos _ Hch) as Hpos.
  rewrite length_drop. unfold usable_length.
  pose proof (Nat.mod_upper_bound (length bytes) (frame_bytes channels)).
  pose proof (Nat.Div0.mod_le (length bytes) (frame_bytes channels)). lia.
Qed.

Lemma resample_nil rate channels : resample rate channels [] = [].
Proof.
  unfold resample. simpl. rewrite Nat.Div0.div_0_l. reflexivity.
Qed.

Lemma write_chunks_spec (chunks : list Buffer) : forall (this : PcmTransform),
  0 < inputChannels this ->
  frameBytes this = inputChannels this * PCM_SAMPLE_BYTES ->
  (length (carry this) < frame_bytes (inputChannels this))%nat ->
  let full := carry this ++ concat chunks in
  let usable := usable_length (inputChannels this) full in
  exists pushed,
    write_chunks uninitialised this chunks = Ok (set_carry this (drop usable full), pushed) /\
    concat pushed
    = resample (inputSampleRate this) (inputChannels this) (take usable full).
Proof.
  induction chunks as [|chunk rest IH]; intros this Hch Hfb Hcarry full usable.
  - exists []. subst usable full. simpl. rewrite app_nil_r.
    rewrite usable_length_small by assumption. simpl. rewrite resample_nil.
    destruct this; auto.
  - cbn [write_chunks]. rewrite transform_chunk by assumption.
    cbn [mbind Result_bind].
    set (full1 := carry this ++ chunk). set (u1 := usable_length (inputChannels this) full1).
    set (this1 := set_carry this (drop u1 full1)).
    destruct (IH this1) as (pushed & Hrest & Hout);
      [assumption|assumption|apply length_drop_usable; assumption|].
    cbn [carry this1 set_carry] in Hrest, Hout.
    change (inputChannels this1) with (inputChannels this) in *.
    change (inputSampleRate this1) with (inputSampleRate this) in *.
    set (full2 := drop u1 full1 ++ concat rest) in *.
    set (u2 := usable_length (inputChannels this) full2) in *.
    rewrite Hrest. cbn [mbind Result_bind].
    assert (full = take u1 full1 ++ full2) as Hfull.
    { subst full full2. cbn [concat]. rewrite !app_assoc. fold full1.
      rewrite take_drop. reflexivity. }
    assert (length (take u1 full1) = u1) as Hlen
      by (rewrite length_take; pose proof (usable_length_le (inputChannels this) full1);
          fold u1 in H; lia).
    assert (usable = (u1 + u2)%nat) as Husable.
    { subst usable. rewrite Hfull, usable_length_app, Hlen; [reflexivity|assumption|].
      rewrite Hlen. apply usable_length_mod. assumption. }
    eexists. split.
    + f_equal. f_equal. unfold this1, set_carry. cbn. f_equal.
      rewrite Husable, Hfull. rewrite drop_app_ge by lia. f_equal. lia.
    + rewrite concat_app, Hout, Husable, Hfull.
      rewrite take_app_add' by (symmetry; exact Hlen).
      rewrite resample_app; [|assumption|rewrite Hlen; apply usable_length_mod; assumption].
      f_equal. destruct (Nat.eqb_spec u1 0) as [E|_]; cbn [concat].
      * rewrite E. simpl. rewrite resample_nil. reflexivity.
      * rewrite app_nil_r. reflexivity.
Qed.

Lemma new_transform_fields rate channels this :
  PcmTransform_new rate channels = Ok this ->
  carry this = [] /\ frameBytes this = channels * PCM_SAMPLE_BYTES /\
  inputSampleRate this = rate /\ inputChannels this = channels /\
  (rate = 24000 \/ rate = 48000).
Proof.
  unfold PcmTransform_new.
  destruct (Z.eqb_spec rate 24000), (Z.eqb_spec rate 48000); simpl;
    intros H; inversion H; subst; simpl; auto 10.
Qed.

Lemma new_transform_supported rate channels :
  rate = 24000 \/ rate = 48000 ->
  exists this, PcmTransform_new rate channels = Ok this.
Proof.
  intros [-> | ->]; eexists; reflexivity.
Qed.

Lemma new_transform_unsupported rate channels :
  rate <> 24000 -> rate <> 48000 ->
  PcmTransform_new rate channels = Throw (UnsupportedSampleRate rate).
Proof.
  intros H1 H2. unfold PcmTransform_new.
  destruct (Z.eqb_spec rate 24000), (Z.eqb_spec rate 48000); simpl; congruence.
Qed.

(** A fresh transform fed with [chunks] has pushed the resampled whole
    frames of their concatenation and keeps the rest as its carry. *)
Lemma fresh_transform_spec rate channels this (chunks : list Buffer) :
  0 < channels ->
  PcmTransform_new rate channels = Ok this ->
  let whole := concat chunks in
  let usable := usable_length channels whole in
  exists pushed,
    write_chunks uninitialised this chunks = Ok (set_carry this (drop usable whole), pushed) /\
    concat pushed = resample rate channels (take usable whole).
Proof.
  intros Hch Hnew whole usable.
  destruct (new_transform_fields _ _ _ Hnew) as (Hcarry & Hfb & Hrate & Hchan & _).
  destruct (write_chunks_spec chunks this) as (pushed & Hrun & Hout).
  - rewrite Hchan. assumption.
  - rewrite Hchan. assumption.
  - rewrite Hcarry, Hchan. pose proof (frame_bytes_pos _ Hch). simpl. lia.
  - rewrite Hcarry, Hchan, Hrate in *. simpl in Hrun, Hout. eauto.
Qed.

Lemma transform_output_spec rate channels (chunks : list Buffer) :
  0 < channels ->
  rate = 24000 \/ rate = 48000 ->
  transform_output uninitialised rate channels chunks
  = Ok (resample rate channels
          (take (usable_length channels (concat chunks)) (concat chunks))).
Proof.
  intros Hch Hrate. unfold transform_output.
  destruct (new_transform_supported rate channels Hrate) as [this Hnew].
  rewrite Hnew. cbn [mbind Result_bind].
  destruct (fresh_transform_spec rate channels this chunks Hch Hnew) as (pushed & -> & Hout).
  cbn [mbind Result_bind]. unfold Buffer_concat. rewrite Hout. reflexivity.
Qed.

Lemma transform_carry_spec rate channels (chunks : list Buffer) :
  0 < channels ->
  rate = 24000 \/ rate = 48000 ->
  transform_carry uninitialised rate channels chunks
  = Ok (drop (usable_length channels (concat chunks)) (concat chunks)).
Proof.
  intros Hch Hrate. unfold transform_carry.
  destruct (new_transform_supported rate channels Hrate) as [this Hnew].
  rewrite Hnew. cbn [mbind Result_bind].
  destruct (fresh_transform_spec rate channels this chunks Hch Hnew) as (pushed & -> & Hout).
  reflexivity.
Qed.

(** C1: for every input byte sequence and every way of splitting it
    into chunks, feeding the chunks to a fresh transform in order and
    concatenating everything it emits yields the same bytes as feeding
    the whole sequence as a single chunk. Both runs succeed when the
    sample rate is a supported one, and emit the resampled whole frames
    of the sequence. *)
Theorem split_invariance rate channels (chunks : list Buffer) :
  0 < channels ->
  transform_output uninitialised rate channels chunks
  = transform_output uninitialised rate channels [Buffer_concat chunks] /\
  (rate = 24000 \/ rate = 48000 ->
   transform_output uninitialised rate channels chunks
   = Ok (resample rate channels
           (take (usable_length channels (Buffer_concat chunks)) (Buffer_concat chunks)))).
Proof.
  intros Hch. split; [|apply transform_output_spec; assumption].
  destruct (Z.eq_dec rate 24000) as [E1|N1]; [|destruct (Z.eq_dec rate 48000) as [E2|N2]].
  3:{ unfold transform_output. rewrite new_transform_unsupported by assumption. reflexivity. }
  all: rewrite !transform_output_spec by auto.
  all: unfold Buffer_concat; cbn [concat]; rewrite app_nil_r; reflexivity.
Qed.

(** C2: for every sequence of chunks whose concatenated length is an
    exact multiple of [frameBytes = inputChannels * 2], the transform
    emits [inputFrames * upsampleFactor * 4] bytes in total, and its
    carry is empty after the final chunk. *)
Theorem aligned_input_output_length rate channels (chunks : list Buffer) :
  0 < channels ->
  rate = 24000 \/ rate = 48000 ->
  Buffer_length (Buffer_concat chunks) mod (channels * PCM_SAMPLE_BYTES) = 0 ->
  let inputFrames := Buffer_length (Buffer_concat chunks) / (channels * PCM_SAMPLE_BYTES) in
  let upsampleFactor := if rate =? DISCORD_SAMPLE_RATE then 1 else 2 in
  let outputFrameBytes := DISCORD_CHANNELS * PCM_SAMPLE_BYTES in
  (exists output,
     transform_output uninitialised rate channels chunks = Ok output /\
     Buffer_length output = inputFrames * upsampleFactor * outputFrameBytes) /\
  transform_carry uninitialised rate channels chunks = Ok [].
Proof.
  intros Hch Hrate Hmod inputFrames upsampleFactor outputFrameBytes.
  pose proof (frame_bytes_pos _ Hch) as Hpos.
  set (whole := Buffer_concat chunks) in *.
  assert (channels * PCM_SAMPLE_BYTES = Z.of_nat (frame_bytes channels)) as Hfb
    by (unfold frame_bytes, PCM_SAMPLE_BYTES; lia).
  assert ((length whole mod frame_bytes channels)%nat = 0%nat) as Hmod'.
  { unfold Buffer_length in Hmod. rewrite Hfb, <- Nat2Z.inj_mod in Hmod. lia. }
  assert (usable_length channels whole = length whole) as Husable
    by (unfold usable_length; lia).
  split.
  - eexists. split; [apply transform_output_spec; assumption|].
    fold (Buffer_concat chunks). fold whole. rewrite Husable, take_ge by lia.
    unfold Buffer_length. rewrite length_resample by assumption.
    subst inputFrames upsampleFactor outputFrameBytes.
    unfold Buffer_length. rewrite Hfb, <- Nat2Z.inj_div.
    unfold upsample_factor, DISCORD_CHANNELS, PCM_SAMPLE_BYTES.
    destruct (rate =? DISCORD_SAMPLE_RATE); lia.
  - rewrite transform_carry_spec by assumption.
    fold (Buffer_concat chunks). fold whole. rewrite Husable, drop_ge by lia. reflexivity.
Qed.

End TransformFacts.

Lemma split_invariance_witness :
  transform_output (fun _ => "000"%byte) 24000 1
    [["001"; "002"; "003"]; ["004"; "005"]; []; ["006"; "007"]]%byte
  = transform_output (fun _ => "000"%byte) 24000 1
      [Buffer_concat [["001"; "002"; "003"]; ["004"; "005"]; []; ["006"; "007"]]%byte].
Proof.
  refine (proj1 (split_invariance (fun _ => "000"%byte) 24000 1 _ _)). lia.
Defined.

Lemma aligned_input_output_length_witness :
  (exists output,
     transform_output (fun _ => "255"%byte) 48000 2
       [["001"; "002"; "003"]; ["004"; "005"; "006"; "007"; "008"]]%byte = Ok output /\
     Buffer_length output = 2 * 1 * 4) /\
  transform_carry (fun _ => "255"%byte) 48000 2
    [["001"; "002"; "003"]; ["004"; "005"; "006"; "007"; "008"]]%byte = Ok [].
Proof.
  apply (aligned_input_output_length (fun _ => "255"%byte) 48000 2
           [["001"; "002"; "003"]; ["004"; "005"; "006"; "007"; "008"]]%byte);
    [lia | right; reflexivity | reflexivity].
Defined.

(** C7 (as amended): constructing the transform with an input sample
    rate other than 24000 and 48000 fails at construction time with the
    configuration error, whatever the channel count; the constructor
    accepts every channel count together with a supported rate; and a
    transform constructed with a positive channel count (1 and 2 are
    the ones its static type admits) processes every sequence of chunks
    without raising an error. *)
Theorem construction_checks_rate (uninitialised : nat -> byte) rate channels
    (chunks : list Buffer) :
  match PcmTransform_new rate channels with
  | Throw e => e = UnsupportedSampleRate rate /\ rate <> 24000 /\ rate <> 48000
  | Ok this =>
      (rate = 24000 \/ rate = 48000) /\
      (0 < channels -> is_Ok (write_chunks uninitialised this chunks) = true)
  end.
Proof.
  destruct (PcmTransform_new rate channels) as [this|e] eqn:Hnew.
  - destruct (new_transform_fields _ _ _ Hnew) as (_ & _ & _ & _ & Hrate).
    split; [assumption|]. intros Hch.
    destruct (fresh_transform_spec uninitialised rate channels this chunks Hch Hnew)
      as (pushed & -> & _).
    reflexivity.
  - unfold PcmTransform_new in Hnew.
    destruct (Z.eqb_spec rate 24000), (Z.eqb_spec rate 48000); simpl in Hnew;
      inversion Hnew; auto.
Qed.

Lemma construction_checks_rate_witness :
  is_Ok (write_chunks (fun _ => "000"%byte)
           {| carry := []; frameBytes := 4; inputSampleRate := 24000; inputChannels := 2 |}
           [["001"; "002"; "003"]; ["004"; "005"; "006"]]%byte) = true.
Proof.
  pose proof (construction_checks_rate (fun _ => "000"%byte) 24000 2
                [["001"; "002"; "003"]; ["004"; "005"; "006"]]%byte) as H.
  simpl in H. apply H. lia.
Defined.

(** C7 as stated fails: a channel count of 3 passes construction. *)
Lemma construction_accepts_three_channels :
  is_Ok (PcmTransform_new 24000 3) = true /\ 3 <> 1 /\ 3 <> 2.
Proof. split; [reflexivity | split; lia]. Qed.

(** A channel count of 0 passes construction as well, and every chunk
    then ends in an error. *)
Example zero_channels_fail_per_chunk :
  exists this,
    PcmTransform_new 24000 0 = Ok this /\
    _transform (fun _ => "000"%byte) this ["001"; "002"]%byte = Throw BufferRangeError.
Proof. eexists. split; reflexivity. Qed.

(** ** The playback buffer *)

(** ** The buffer capacity *)











(** ** Worked examples of the transform *)

(** C9 (as amended): with mono 24 kHz input, a single chunk of 4 bytes
    (2 mono frames) produces exactly 16 bytes, 4 stereo frames, and a
    single chunk of 8 bytes (4 mono frames) produces exactly 32 bytes,
    8 stereo frames; every input sample is both channels of two
    consecutive output frames. *)
Theorem mono_24k_example (uninitialised : nat -> byte) (a0 a1 b0 b1 c0 c1 d0 d1 : byte) :
  transform_output uninitialised 24000 1 [[a0; a1; b0; b1]]
  = Ok [a0; a1; a0; a1;  a0; a1; a0; a1;
        b0; b1; b0; b1;  b0; b1; b0; b1] /\
  transform_output uninitialised 24000 1 [[a0; a1; b0; b1; c0; c1; d0; d1]]
  = Ok [a0; a1; a0; a1;  a0; a1; a0; a1;
        b0; b1; b0; b1;  b0; b1; b0; b1;
        c0; c1; c0; c1;  c0; c1; c0; c1;
        d0; d1; d0; d1;  d0; d1; d0; d1].
Proof.
  split; rewrite transform_output_spec by (lia || auto); reflexivity.
Qed.

(** C9 as stated fails: 8 bytes of mono input are 4 frames and produce
    32 bytes of output, not 16. *)
Lemma eight_bytes_give_thirty_two :
  exists output,
    transform_output (fun _ => "000"%byte) 24000 1
      [["001"; "002"; "003"; "004"; "005"; "006"; "007"; "008"]]%byte = Ok output /\
    length output = 32%nat /\ length output <> 16%nat.
Proof.
  eexists. split; [vm_compute; reflexivity|]. split; [reflexivity | simpl; lia].
Qed.

(** C10: a call that omits [inputSampleRate] treats the input as
    24000 Hz and a call that omits [inputChannels] treats it as mono;
    with both omitted the transform is the 24 kHz mono one, whose
    upsample factor is 2 and which writes every input sample to both
    channels of two consecutive output frames. *)
Theorem default_input_format (uninitialised : nat -> byte)
    (signal : option bool) (rate channels : option Z) (ms : option Number)
    (lo hi : byte) :
  create_transform
    {| abortSignal := signal; param_inputSampleRate := None;
       param_inputChannels := channels; maxBufferedMs := ms |}
  = PcmTransform_new 24000 (default 1 channels) /\
  create_transform
    {| abortSignal := signal; param_inputSampleRate := rate;
       param_inputChannels := None; maxBufferedMs := ms |}
  = PcmTransform_new (default 24000 rate) 1 /\
  create_transform
    {| abortSignal := signal; param_inputSampleRate := None;
       param_inputChannels := None; maxBufferedMs := ms |}
  = Ok {| carry := []; frameBytes := 2; inputSampleRate := 24000; inputChannels := 1 |} /\
  upsample_factor 24000 = 2%nat /\
  (this ← create_transform
            {| abortSignal := signal; param_inputSampleRate := None;
               param_inputChannels := None; maxBufferedMs := ms |};
   '(_, pushed) ← _transform uninitialised this [lo; hi];
   Ok pushed)
  = Ok [[lo; hi; lo; hi;  lo; hi; lo; hi]].
Proof.
  repeat split.
  unfold create_transform. simpl. cbn [mbind Result_bind].
  rewrite transform_chunk by (simpl; reflexivity || lia). reflexivity.
Qed.

(** ** The playback lifecycle *)

Ltac split_cases :=
  repeat match goal with
  | |- context [if ?b then _ else _] => destruct b eqn:?
  | |- context [match ?x with _ => _ end] => destruct x eqn:?
  end.

Ltac inv_solver :=
  unfold effects_shape, pending in *; simpl in *;
  repeat match goal with
  | H : _ /\ _ |- _ => destruct H
  end;
  subst; simpl in *;
  repeat split; intros;
  repeat match goal with
  | H : ?a = ?a -> _ |- _ => specialize (H eq_refl)
  | H : forall b, Returned (Resolved ?x) = Returned (Resolved b) -> _ |- _ =>
      specialize (H x eq_refl)
  | H : _ /\ _ |- _ => destruct H
  | H : _ <-> _ |- _ => destruct H
  end;
  try congruence; try discriminate; eauto 2.

(** How the synchronous part of a call ends: rejected by one of the two
    constructors, returned at once because the signal is aborted, or
    suspended with playback started. *)
Lemma call_cases params :
  (exists e,
     (create_transform params = Throw e \/
      (is_Ok (create_transform params) = true /\ create_output params = Throw e)) /\
     playDiscordPcmStream params
     = {| aborted := false; settled := false; done := false; pipeDone := None;
          abortDone := None; listening := false;
          pc := Returned (Rejected e); effects := [] |}) \/
  (is_Ok (create_transform params) = true /\
   is_Ok (create_output params) = true /\
   playDiscordPcmStream params
   = match abortSignal params with
     | Some true =>
         {| aborted := true; settled := true; done := false; pipeDone := None;
            abortDone := Some false; listening := false;
            pc := Returned (Resolved true); effects := teardown |}
     | Some false =>
         {| aborted := false; settled := false; done := false; pipeDone := None;
            abortDone := Some false; listening := true;
            pc := AwaitPlaying; effects := [PlayerPlay] |}
     | None =>
         {| aborted := false; settled := false; done := false; pipeDone := None;
            abortDone := None; listening := false;
            pc := AwaitPlaying; effects := [PlayerPlay] |}
     end).
Proof.
  unfold playDiscordPcmStream, create_output.
  destruct (create_transform params) as [t|e].
  - destruct (PassThrough_new (resolveMaxBufferedBytes (maxBufferedMs params))) as [o|e].
    + right. split; [reflexivity|]. split; [reflexivity|].
      destruct (abortSignal params) as [[|]|]; reflexivity.
    + left. exists e. split; [right; split; reflexivity|reflexivity].
  - left. exists e. split; [left; reflexivity|reflexivity].
Qed.

Lemma lifecycle_inv_init params : lifecycle_inv (playDiscordPcmStream params).
Proof.
  unfold lifecycle_inv.
  destruct (call_cases params) as [(e & _ & ->)|(_ & _ & ->)].
  - exists false, false. inv_solver.
  - destruct (abortSignal params) as [[|]|].
    + exists false, false. inv_solver.
    + exists true, false. inv_solver.
    + exists true, false. inv_solver.
Qed.

Lemma lifecycle_inv_step s ev : lifecycle_inv s -> lifecycle_inv (step s ev).
Proof.
  intros (played & stopped & Hshape & H).
  destruct s as [a st d pd ad l p eff]. unfold effects_shape in Hshape. simpl in Hshape.
  unfold lifecycle_inv.
  destruct ev; unfold step, abortDone_listener, abortListener, finally, cleanup, settle,
    set_aborted, set_pc, race_settled; simpl; split_cases; simpl in *; subst;
  first
    [ solve [exists played, stopped; destruct played, stopped;
             try (destruct p as [| | | |[[|]|?]]); inv_solver]
    | solve [exists played, true; destruct played, stopped;
             try (destruct p as [| | | |[[|]|?]]); inv_solver]
    | solve [exists played, false; destruct played, stopped;
             try (destruct p as [| | | |[[|]|?]]); inv_solver] ].
Qed.

Lemma lifecycle_inv_run_from events : forall s,
  lifecycle_inv s -> lifecycle_inv (run_from s events).
Proof.
  unfold run_from. induction events as [|ev events IH]; intros s Hs; simpl; [assumption|].
  apply IH, lifecycle_inv_step, Hs.
Qed.

Lemma lifecycle_inv_run params events : lifecycle_inv (run params events).
Proof. apply lifecycle_inv_run_from, lifecycle_inv_init. Qed.

Lemma run_from_app s events events' :
  run_from s (events ++ events') = run_from (run_from s events) events'.
Proof. unfold run_from. apply fold_left_app. Qed.

Lemma calls_app e s (extra : list Effect) eff :
  effects s = eff ++ extra ->
  calls e s = (length (filter (fun e' => e' = e) eff)
               + length (filter (fun e' => e' = e) extra))%nat.
Proof.
  intros H. unfold calls. rewrite H, filter_app, length_app. reflexivity.
Qed.

(** Only the abort listener stops the player. *)
Lemma step_keeps_stop_calls s ev :
  ev <> AbortFired -> calls PlayerStop (step s ev) = calls PlayerStop s.
Proof.
  intros Hev. destruct s as [a st d pd ad l p eff].
  destruct ev; try congruence;
    unfold step, finally, cleanup, settle, set_pc, race_settled; simpl;
    split_cases; try reflexivity;
    unfold calls; simpl; rewrite filter_app, length_app; simpl; lia.
Qed.

Lemma run_keeps_stop_calls events : forall s,
  ~ In AbortFired events ->
  calls PlayerStop (run_from s events) = calls PlayerStop s.
Proof.
  unfold run_from. induction events as [|ev events IH]; intros s Hin; simpl; [reflexivity|].
  rewrite IH by (intros H; apply Hin; right; exact H).
  apply step_keeps_stop_calls. intros ->. apply Hin. left. reflexivity.
Qed.

Lemma initial_stop_calls params : calls PlayerStop (playDiscordPcmStream params) = 0%nat.
Proof.
  destruct (call_cases params) as [(e & _ & ->)|(_ & _ & ->)]; [reflexivity|].
  destruct (abortSignal params) as [[|]|]; reflexivity.
Qed.

Lemma lifecycle_inv_calls s :
  lifecycle_inv s ->
  (forall e, (calls e s <= 1)%nat) /\
  (calls PlayerStop s = 1%nat -> aborted s = true) /\
  (pc s = Returned (Resolved false) -> calls PlayerStop s = 0%nat) /\
  (forall e b, In e teardown -> pc s = Returned (Resolved b) -> calls e s = 1%nat).
Proof.
  intros (played & stopped & Hshape & Hstop & _ & _ & _ & Hnormal & Hret & _).
  destruct s as [a st d pd ad l p eff]. unfold effects_shape in Hshape.
  unfold calls. simpl in *. subst eff.
  repeat split.
  - intros e. destruct played, st, stopped, e; simpl; lia.
  - intros H. destruct stopped; [apply Hstop; reflexivity|].
    destruct played, st; simpl in H; discriminate.
  - intros H. rewrite (Hnormal H). destruct played, st; reflexivity.
  - intros e b He Hp. rewrite (Hret b Hp).
    destruct played, stopped; simpl in He;
      repeat (destruct He as [<- | He]; [reflexivity|]); contradiction.
Qed.

Lemma stop_needs_abort events : forall s,
  calls PlayerStop (run_from s events) <> calls PlayerStop s -> In AbortFired events.
Proof.
  unfold run_from. induction events as [|ev events IH]; intros s H; simpl in *.
  - congruence.
  - destruct ev; try (left; reflexivity); right;
      match type of H with
      | context [fold_left step events ?s'] => apply (IH s')
      end;
      rewrite step_keeps_stop_calls by discriminate; exact H.
Qed.

(** C4: for every call and every sequence of events, each operation of
    the teardown body ([unpipe] and [destroy] of the three stages, and
    the optional [stop]) has run at most once, and exactly once when the
    call has resolved; the player is stopped only by the abort listener,
    and never when the call completes with [aborted = false]. *)
Theorem cleanup_runs_once params events :
  let s := run params events in
  (forall e, (calls e s <= 1)%nat) /\
  (forall e b, In e teardown -> pc s = Returned (Resolved b) -> calls e s = 1%nat) /\
  (calls PlayerStop s = 1%nat -> In AbortFired events /\ aborted s = true) /\
  (pc s = Returned (Resolved false) -> calls PlayerStop s = 0%nat).
Proof.
  intros s.
  destruct (lifecycle_inv_calls s (lifecycle_inv_run params events))
    as (Hle & Hab & Hnormal & Hall).
  split; [exact Hle|]. split; [exact Hall|]. split; [|exact Hnormal].
  intros H. split; [|apply Hab; exact H].
  apply (stop_needs_abort events (playDiscordPcmStream params)).
  rewrite initial_stop_calls. fold (run params events). fold s. lia.
Qed.

Lemma signal_inv_init params sig :
  abortSignal params = Some sig ->
  signal_inv (playDiscordPcmStream params).
Proof.
  unfold signal_inv. intros Hsig.
  destruct (call_cases params) as [(e & _ & ->)|(_ & _ & ->)]; [discriminate|].
  rewrite Hsig. destruct sig; simpl; intros; [discriminate|]. split; congruence.
Qed.

(** A call whose set-up succeeded with a signal that is already aborted
    has returned without starting playback. *)
Lemma returned_unplayed_init params :
  is_Ok (create_transform params) = true ->
  is_Ok (create_output params) = true ->
  abortSignal params = Some true ->
  returned_unplayed (playDiscordPcmStream params).
Proof.
  intros Ht Ho Hsig.
  destruct (call_cases params) as [(e & [He|[_ He]] & _)|(_ & _ & ->)].
  - rewrite He in Ht. discriminate.
  - rewrite He in Ho. discriminate.
  - rewrite Hsig. repeat split.
Qed.

(** A call that one of the constructors rejected has returned and done
    nothing, and stays so. *)
Lemma rejected_call_stays params events e :
  create_transform params = Throw e \/
  (is_Ok (create_transform params) = true /\ create_output params = Throw e) ->
  pc (run params events) = Returned (Rejected e) /\
  effects (run params events) = [].
Proof.
  intros He. unfold run.
  destruct (call_cases params) as [(e' & He' & ->)|(Ht & Ho & _)].
  - assert (e' = e) as ->.
    { destruct He as [He|[Ht He]], He' as [He'|[Ht' He']].
      - congruence.
      - rewrite He in Ht'. discriminate.
      - rewrite He' in Ht. discriminate.
      - congruence. }
    assert (forall s, pc s = Returned (Rejected e) -> listening s = false ->
                      effects s = [] ->
                      pc (run_from s events) = Returned (Rejected e) /\
                      effects (run_from s events) = []) as Hstay.
    { unfold run_from. induction events as [|ev events IH]; intros s Hpc Hl Heff;
        simpl; [auto|].
      apply IH; destruct s as [a st d pd ad l p eff]; simpl in *; subst;
        destruct ev; unfold step, abortDone_listener, settle; simpl;
        split_cases; reflexivity. }
    apply Hstay; reflexivity.
  - exfalso. destruct He as [He|[_ He]].
    + rewrite He in Ht. discriminate.
    + rewrite He in Ho. discriminate.
Qed.

Lemma signal_inv_step s ev : signal_inv s -> signal_inv (step s ev).
Proof.
  unfold signal_inv, pending. destruct s as [a st d pd ad l p eff].
  destruct ev; unfold step, abortDone_listener, abortListener, finally, cleanup, settle,
    set_aborted, set_pc, race_settled; simpl; split_cases; simpl in *;
    intros H Hp; try discriminate;
    try (destruct H as [H1 H2]; [reflexivity || assumption|]; split; congruence).
Qed.

Lemma signal_inv_run_from events : forall s, signal_inv s -> signal_inv (run_from s events).
Proof.
  unfold run_from. induction events as [|ev events IH]; intros s Hs; simpl; [assumption|].
  apply IH, signal_inv_step, Hs.
Qed.

(** The state of a call that has observed the abort, spelled out. *)
Lemma abort_observed_shape s :
  lifecycle_inv s -> abort_observed s ->
  aborted s = true /\ settled s = true /\ abortDone s = Some true /\
  effects s = PlayerPlay :: PlayerStop :: teardown /\
  (done s = false <-> pipeDone s = None) /\
  (pending s = true \/ pc s = Returned (Resolved true)) /\
  (pending s = false -> listening s = false).
Proof.
  intros (played & stopped & Hshape & Hstop & _ & _ & Hl & _ & _ & Hd)
         (Ha & Had & Hplay & Hstopped & Hpc).
  unfold effects_shape in Hshape. unfold calls in Hplay, Hstopped.
  rewrite Hshape in Hplay, Hstopped.
  destruct played, (settled s), stopped; try discriminate.
  repeat split; try assumption; try apply Hd.
Qed.

Ltac unfold_step :=
  unfold step, abortDone_listener, abortListener, finally, cleanup, settle,
    set_aborted, set_pc, race_settled, pending; simpl.

Lemma abort_observed_of_shape s :
  aborted s = true -> abortDone s = Some true ->
  effects s = PlayerPlay :: PlayerStop :: teardown ->
  (pending s = true \/ pc s = Returned (Resolved true)) ->
  abort_observed s.
Proof.
  intros Ha Had Heff Hpc. unfold abort_observed, calls. rewrite Heff. auto.
Qed.

(** The abort listener runs the teardown, with [stop], when the signal
    fires on a suspended call. *)
Lemma abort_while_pending s :
  lifecycle_inv s -> signal_inv s -> pending s = true ->
  abort_observed (step s AbortFired).
Proof.
  intros (played & stopped & Hshape & Hstop & Hps & Hplayed & _) Hsig Hp.
  destruct (Hsig Hp) as [Hl Had]. specialize (Hplayed Hp). subst played.
  unfold effects_shape in Hshape.
  destruct s as [a st d pd ad l p eff]. simpl in *. subst l eff.
  unfold pending in Hp, Hps. simpl in Hp, Hps.
  apply abort_observed_of_shape;
    destruct st, ad as [[|]|], p as [| | | |o]; try discriminate; try congruence;
    try (rewrite (Hps eq_refl eq_refl)); unfold_step; auto.
Qed.

Lemma abort_observed_step s ev :
  lifecycle_inv s -> abort_observed s -> abort_observed (step s ev).
Proof.
  intros Hinv Hab.
  destruct (abort_observed_shape s Hinv Hab) as (Ha & Hst & Had & Heff & Hd & Hpc & Hl).
  clear Hinv Hab.
  destruct s as [a st d pd ad l p eff].
  unfold pending in Hpc, Hl. simpl in Ha, Hst, Had, Heff, Hd, Hpc, Hl.
  subst a st ad eff.
  apply abort_observed_of_shape;
    destruct ev, p as [| | | |[[|]|?]];
    try solve [exfalso; destruct Hpc as [H|H]; discriminate H];
    try (rewrite (Hl eq_refl));
    unfold_step; auto;
    destruct d, pd as [[?|]|], l; simpl; auto.
Qed.

Lemma abort_observed_run_from events : forall s,
  lifecycle_inv s -> abort_observed s -> abort_observed (run_from s events).
Proof.
  unfold run_from. induction events as [|ev events IH]; intros s Hinv Hab; simpl; [assumption|].
  apply IH; [apply lifecycle_inv_step | apply abort_observed_step]; assumption.
Qed.

(** Once the signal has been observed, the events the event loop still
    owes the call take it to its return. *)
Lemma abort_observed_drain s :
  lifecycle_inv s -> abort_observed s -> pc (run_from s drain) = Returned (Resolved true).
Proof.
  intros Hinv Hab.
  destruct (abort_observed_shape s Hinv Hab) as (Ha & Hst & Had & Heff & Hd & Hpc & Hl).
  clear Hinv Hab.
  destruct s as [a st d pd ad l p eff].
  unfold pending in Hpc, Hl. simpl in Ha, Hst, Had, Heff, Hd, Hpc, Hl.
  subst a st ad eff.
  destruct p as [| | | |[[|]|?]].
  all: try solve [exfalso; destruct Hpc as [H|H]; discriminate H].
  all: clear Hpc Hl.
  all: destruct d.
  all: destruct pd as [[?|]|].
  all: try solve [exfalso; destruct Hd as [Hd1 Hd2];
               first [discriminate (Hd1 eq_refl) | discriminate (Hd2 eq_refl)]].
  all: clear Hd.
  all: destruct l.
  all: vm_compute.
  all: reflexivity.
Qed.

Lemma returned_unplayed_step s ev : returned_unplayed s -> returned_unplayed (step s ev).
Proof.
  intros (Hpc & Hl & Heff). destruct s as [a st d pd ad l p eff]. simpl in *. subst.
  destruct ev; unfold returned_unplayed, step, abortDone_listener, settle; simpl;
    split_cases; simpl; auto.
Qed.

Lemma returned_unplayed_run_from events : forall s,
  returned_unplayed s -> returned_unplayed (run_from s events).
Proof.
  unfold run_from. induction events as [|ev events IH]; intros s Hs; simpl; [assumption|].
  apply IH, returned_unplayed_step, Hs.
Qed.

(** C3 (as amended): for every call of [playDiscordPcmStream]:
    if the transform and the output stream are constructed (a supported
    input sample rate and a valid buffer capacity) and the signal is
    already aborted at call time, the call has resolved with
    [{aborted: true}] and neither [play] nor [stop] is ever called,
    whatever happens later; if the signal, not aborted at call time,
    fires while the call is suspended, then whatever events come before
    and after (pipe errors included) the call never rejects, the calls
    made are [play], then [stop], then the teardown, each exactly once,
    and once the event loop has delivered the 'close' of the destroyed
    output, the [entersState] timers and the continuations, the call
    has resolved with [{aborted: true}]; and if one of the two
    constructors throws (an unsupported input sample rate, or a buffer
    capacity that is not a whole number), the call rejects with that
    error and makes no call at all, aborted signal or not. *)
Theorem abort_takes_precedence params (before after : list Event) :
  (is_Ok (create_transform params) = true ->
   is_Ok (create_output params) = true ->
   abortSignal params = Some true ->
   let s := run params after in
   pc s = Returned (Resolved true) /\
   calls PlayerPlay s = 0%nat /\ calls PlayerStop s = 0%nat) /\
  (abortSignal params = Some false ->
   pending (run params before) = true ->
   let s := run params (before ++ AbortFired :: after) in
   (pending s = true \/ pc s = Returned (Resolved true)) /\
   effects s = PlayerPlay :: PlayerStop :: teardown /\
   calls PlayerPlay s = 1%nat /\ calls PlayerStop s = 1%nat /\
   pc (run_from s drain) = Returned (Resolved true)) /\
  (forall e,
     create_transform params = Throw e \/
     (is_Ok (create_transform params) = true /\ create_output params = Throw e) ->
     pc (run params after) = Returned (Rejected e) /\
     effects (run params after) = []).
Proof.
  split; [|split].
  - intros Ht Ho Hsig s.
    assert (returned_unplayed s) as (Hpc & _ & Heff).
    { apply returned_unplayed_run_from, returned_unplayed_init; assumption. }
    unfold calls. rewrite Heff. auto.
  - intros Hsig Hp s.
    assert (lifecycle_inv s) as Hinv by apply lifecycle_inv_run.
    assert (abort_observed s) as Hab.
    { subst s. unfold run. rewrite run_from_app.
      change (run_from ?x (AbortFired :: after))
        with (run_from (step x AbortFired) after).
      fold (run params before).
      apply abort_observed_run_from.
      - apply lifecycle_inv_step, lifecycle_inv_run.
      - apply abort_while_pending; [apply lifecycle_inv_run| |assumption].
        apply signal_inv_run_from. eapply signal_inv_init; eassumption. }
    pose proof (abort_observed_drain s Hinv Hab) as Hdrain.
    destruct (abort_observed_shape s Hinv Hab) as (_ & _ & _ & Heff & _).
    destruct Hab as (_ & _ & Hplay & Hstop & Hpc). auto 6.
  - intros e He. apply rejected_call_stays, He.
Qed.

Lemma abort_takes_precedence_witness :
  let params :=
    {| abortSignal := Some false; param_inputSampleRate := Some 48000;
       param_inputChannels := Some 2; maxBufferedMs := None |} in
  let s := run params ([PlayingSettled; PcmStreamError (StreamError "boom")]
                         ++ AbortFired :: [Resume]) in
  (pending s = true \/ pc s = Returned (Resolved true)) /\
  effects s = PlayerPlay :: PlayerStop :: teardown /\
  calls PlayerPlay s = 1%nat /\ calls PlayerStop s = 1%nat /\
  pc (run_from s drain) = Returned (Resolved true).
Proof.
  intros params s.
  apply (proj1 (proj2 (abort_takes_precedence params
                         [PlayingSettled; PcmStreamError (StreamError "boom")] [Resume])));
    vm_compute; reflexivity.
Defined.

(** C3 as stated fails: with an unsupported sample rate the call
    rejects with the configuration error although its signal is already
    aborted. *)
Lemma config_error_precedes_abort :
  let params :=
    {| abortSignal := Some true; param_inputSampleRate := Some 44100;
       param_inputChannels := None; maxBufferedMs := None |} in
  pc (run params []) = Returned (Rejected (UnsupportedSampleRate 44100)) /\
  pc (run params (AbortFired :: drain)) = Returned (Rejected (UnsupportedSampleRate 44100)).
Proof. split; vm_compute; reflexivity. Qed.

(** A buffer duration that is NaN gives a capacity that is NaN: the
    output stream cannot be built and the call rejects, aborted signal
    or not. *)
Example nan_capacity_rejects :
  let params :=
    {| abortSignal := Some true; param_inputSampleRate := None;
       param_inputChannels := None; maxBufferedMs := Some S754_nan |} in
  create_output params = Throw InvalidArgValue /\
  pc (run params (AbortFired :: drain)) = Returned (Rejected InvalidArgValue).
Proof. split; vm_compute; reflexivity. Qed.

(** A pipe error that the call has already thrown is not undone by a
    later abort. *)
Example abort_after_rejection :
  let params :=
    {| abortSignal := Some false; param_inputSampleRate := None;
       param_inputChannels := None; maxBufferedMs := None |} in
  pc (run params [PlayingSettled; OutputError (StreamError "boom"); Resume; Resume; AbortFired])
  = Returned (Rejected (StreamError "boom")).
Proof. vm_compute. reflexivity. Qed.

(** ** The streaming delivery controller *)





(** C6 (as amended): for a provider that does not support streaming,
    no timer is started and the streaming synthesis is never called,
    whatever the preferences; the request is delivered through the
    buffered path, tagged [delivery = buffered], unless streaming is
    enabled with [fallbackToBuffered] off, in which case the result is
    a [Failure] tagged [delivery = stream] that names the provider. *)
Theorem unsupported_provider_never_races client req :
  supportsStreaming client = false ->
  let r := fst (textToSpeechWithFallback client req) in
  let made := snd (textToSpeechWithFallback client req) in
  (forall c, In c made -> is_timer c = false /\ c <> CallSynthesizeStreaming) /\
  (if enabled (stream_preferences req) && negb (fallbackToBuffered (stream_preferences req))
   then delivery r = stream /\
        result r = Failure UnsupportedOrTimedOut
                     ("streaming unsupported for provider " ++ provider_name client)%string
   else delivery r = buffered /\ r = buffered_delivery client req None).
Proof.
  intros Hsup r made. subst r made. unfold textToSpeechWithFallback. rewrite Hsup.
  destruct (enabled (stream_preferences req)),
           (fallbackToBuffered (stream_preferences req)); simpl;
    (split; [intros c Hin; repeat (destruct Hin as [<- | Hin]; [split; [reflexivity|discriminate]|]);
             contradiction | auto]).
Qed.

Lemma unsupported_provider_never_races_witness :
  let r := fst (textToSpeechWithFallback edge_provider (hello true)) in
  delivery r = buffered /\ r = buffered_delivery edge_provider (hello true) None.
Proof.
  apply (proj2 (unsupported_provider_never_races edge_provider (hello true) eq_refl)).
Defined.

(** C6 as stated fails: with [stream.enabled = true] and
    [fallbackToBuffered = false], the provider without streaming
    support is not delivered through the buffered path. *)
Lemma unsupported_provider_without_fallback :
  supportsStreaming edge_provider = false /\
  delivery (fst (textToSpeechWithFallback edge_provider (hello false))) = stream /\
  is_success (result (fst (textToSpeechWithFallback edge_provider (hello false)))) = false.
Proof. repeat split. Qed.

(** ** Further properties of the transform *)

(** X1: what [Buffer.allocUnsafe] happens to return never shows: the
    bytes pushed downstream and the carry are the same for any two
    contents of the uninitialised memory. *)
Theorem uninitialised_memory_never_leaks (u1 u2 : nat -> byte) rate channels
    (chunks : list Buffer) :
  0 < channels ->
  transform_output u1 rate channels chunks = transform_output u2 rate channels chunks /\
  transform_carry u1 rate channels chunks = transform_carry u2 rate channels chunks.
Proof.
  intros Hch.
  destruct (Z.eq_dec rate 24000) as [E1|N1]; [|destruct (Z.eq_dec rate 48000) as [E2|N2]].
  3:{ unfold transform_output, transform_carry.
      rewrite new_transform_unsupported by assumption. split; reflexivity. }
  all: rewrite !transform_output_spec, !transform_carry_spec by auto.
  all: split; reflexivity.
Qed.

Lemma uninitialised_memory_never_leaks_witness :
  transform_output (fun _ => "000"%byte) 24000 1 [["001"; "002"; "003"]]%byte
  = transform_output (fun n => if Nat.even n then "255"%byte else "170"%byte) 24000 1
      [["001"; "002"; "003"]]%byte.
Proof.
  refine (proj1 (uninitialised_memory_never_leaks _ _ 24000 1 _ _)). lia.
Defined.

(** X2: after any sequence of chunks the carry is the trailing partial
    frame of everything written so far: the last
    [total mod frameBytes] bytes, fewer than [frameBytes] of them. *)
Theorem carry_is_trailing_partial_frame (u : nat -> byte) rate channels
    (chunks : list Buffer) :
  0 < channels ->
  rate = 24000 \/ rate = 48000 ->
  let whole := Buffer_concat chunks in
  let rest := Buffer_length whole mod (channels * PCM_SAMPLE_BYTES) in
  exists carried,
    transform_carry u rate channels chunks = Ok carried /\
    Buffer_length carried = rest /\
    rest < channels * PCM_SAMPLE_BYTES /\
    carried = drop (length whole - Z.to_nat rest) whole.
Proof.
  intros Hch Hrate whole rest. pose proof (frame_bytes_pos _ Hch) as Hpos.
  assert (channels * PCM_SAMPLE_BYTES = Z.of_nat (frame_bytes channels)) as Hfb
    by (unfold frame_bytes, PCM_SAMPLE_BYTES; lia).
  assert (rest = Z.of_nat (length whole mod frame_bytes channels)) as Hrest
    by (subst rest; unfold Buffer_length; rewrite Hfb, <- Nat2Z.inj_mod; reflexivity).
  pose proof (Nat.mod_upper_bound (length whole) (frame_bytes channels)) as Hlt.
  pose proof (Nat.Div0.mod_le (length whole) (frame_bytes channels)) as Hle.
  eexists. split; [apply transform_carry_spec; assumption|].
  fold (Buffer_concat chunks). fold whole. unfold usable_length.
  split; [|split].
  - unfold Buffer_length. rewrite length_drop. lia.
  - lia.
  - f_equal. lia.
Qed.

Lemma carry_is_trailing_partial_frame_witness :
  exists carried,
    transform_carry (fun _ => "000"%byte) 48000 2
      [["001"; "002"; "003"]; ["004"; "005"; "006"]]%byte = Ok carried /\
    Buffer_length carried = 2 /\ 2 < 2 * PCM_SAMPLE_BYTES /\
    carried = ["005"; "006"]%byte.
Proof.
  apply (carry_is_trailing_partial_frame (fun _ => "000"%byte) 48000 2
           [["001"; "002"; "003"]; ["004"; "005"; "006"]]%byte);
    [lia | right; reflexivity].
Defined.

Lemma stereo_frame_whole (input : Buffer) (frame : nat) :
  ((frame + 1) * 4 <= length input)%nat ->
  stereo_frame 2 input frame = take 4 (drop (frame * 4) input).
Proof.
  intros Hlen. unfold stereo_frame. change (frame_bytes 2) with 4%nat. simpl.
  rewrite <- drop_drop. rewrite take_take_drop. reflexivity.
Qed.

Lemma resample_passthrough (n : nat) : forall (i : nat) (input : Buffer),
  ((i + n) * 4 <= length input)%nat ->
  resample_frames 48000 2 input (seq i n) = take (n * 4) (drop (i * 4) input).
Proof.
  induction n as [|n IH]; intros i input Hlen.
  - reflexivity.
  - unfold resample_frames in *. cbn [seq map concat].
    rewrite IH by lia. change (upsample_factor 48000) with 1%nat.
    cbn [replicate concat]. rewrite app_nil_r, stereo_frame_whole by lia.
    replace (S n * 4)%nat with (4 + n * 4)%nat by lia.
    rewrite <- take_take_drop, drop_drop.
    do 3 f_equal. lia.
Qed.

(** X3: input that already is 48 kHz stereo passes through unchanged:
    the output is the input, cut after its last whole frame. *)
Theorem stereo_48k_passes_through (u : nat -> byte) (chunks : list Buffer) :
  let whole := Buffer_concat chunks in
  transform_output u 48000 2 chunks
  = Ok (take (length whole - length whole mod 4) whole).
Proof.
  intros whole. rewrite transform_output_spec by (lia || auto).
  fold (Buffer_concat chunks). fold whole.
  unfold usable_length. change (frame_bytes 2) with 4%nat.
  set (usable := (length whole - length whole mod 4)%nat).
  f_equal. unfold resample. change (frame_bytes 2) with 4%nat.
  pose proof (Nat.div_mod_eq (length whole) 4) as Hdm.
  pose proof (Nat.Div0.mod_le (length whole) 4) as Hle.
  assert (length (take usable whole) = (length whole / 4 * 4)%nat) as Hlen
    by (rewrite length_take; lia).
  rewrite Hlen, Nat.div_mul by lia.
  rewrite resample_passthrough by (rewrite Hlen; lia).
  rewrite drop_0, take_take. f_equal. lia.
Qed.

(** X4: for any chunks, aligned or not, the transform emits four bytes
    per output frame for every whole input frame received:
    [floor(total / frameBytes) * upsampleFactor * 4] bytes. *)
Theorem output_length_any_input (u : nat -> byte) rate channels (chunks : list Buffer) :
  0 < channels ->
  rate = 24000 \/ rate = 48000 ->
  exists output,
    transform_output u rate channels chunks = Ok output /\
    Buffer_length output
    = Buffer_length (Buffer_concat chunks) / (channels * PCM_SAMPLE_BYTES)
      * (if rate =? DISCORD_SAMPLE_RATE then 1 else 2)
      * (DISCORD_CHANNELS * PCM_SAMPLE_BYTES).
Proof.
  intros Hch Hrate. pose proof (frame_bytes_pos _ Hch) as Hpos.
  eexists. split; [apply transform_output_spec; assumption|].
  fold (Buffer_concat chunks). set (whole := Buffer_concat chunks).
  unfold Buffer_length. rewrite length_resample by assumption.
  rewrite length_take, Nat.min_l by apply usable_length_le.
  rewrite usable_length_frames, Nat.div_mul by (assumption || lia).
  replace (channels * PCM_SAMPLE_BYTES) with (Z.of_nat (frame_bytes channels))
    by (unfold frame_bytes, PCM_SAMPLE_BYTES; lia).
  rewrite <- Nat2Z.inj_div. unfold upsample_factor.
  change (DISCORD_CHANNELS * PCM_SAMPLE_BYTES) with 4.
  destruct (rate =? DISCORD_SAMPLE_RATE); lia.
Qed.

Lemma output_length_any_input_witness :
  exists output,
    transform_output (fun _ => "000"%byte) 24000 1
      [["001"; "002"; "003"]; ["004"; "005"]]%byte = Ok output /\
    Buffer_length output = 5 / 2 * 2 * 4.
Proof.
  apply (output_length_any_input (fun _ => "000"%byte) 24000 1
           [["001"; "002"; "003"]; ["004"; "005"]]%byte); [lia | left; reflexivity].
Defined.

(** X5: the carry is all the transform remembers: after any chunks,
    what further chunks add to the output is what a fresh transform
    emits when it is fed the carry followed by those chunks. *)
Theorem output_resumes_from_carry (u : nat -> byte) rate channels
    (chunks more : list Buffer) :
  0 < channels ->
  rate = 24000 \/ rate = 48000 ->
  exists output carried rest,
    transform_output u rate channels chunks = Ok output /\
    transform_carry u rate channels chunks = Ok carried /\
    transform_output u rate channels (carried :: more) = Ok rest /\
    transform_output u rate channels (chunks ++ more) = Ok (output ++ rest).
Proof.
  intros Hch Hrate. pose proof (frame_bytes_pos _ Hch) as Hpos.
  rewrite !transform_output_spec, transform_carry_spec by assumption.
  eexists _, _, _. split; [reflexivity|]. split; [reflexivity|].
  rewrite transform_output_spec by assumption. split; [reflexivity|].
  rewrite concat_app. cbn [concat].
  set (whole := concat chunks). set (later := concat more).
  set (n := usable_length channels whole).
  pose proof (usable_length_le channels whole) as Hn. fold n in Hn.
  set (head := take n whole). set (tail := drop n whole ++ later).
  assert (length head = n) as Hlen by (subst head; rewrite length_take; lia).
  assert (length head mod frame_bytes channels = 0)%nat as Hmod
    by (rewrite Hlen; apply usable_length_mod; assumption).
  assert (whole ++ later = head ++ tail) as ->
    by (subst head tail; rewrite app_assoc, take_drop; reflexivity).
  rewrite usable_length_app by assumption.
  rewrite firstn_app_2. rewrite resample_app by assumption.
  reflexivity.
Qed.

Lemma output_resumes_from_carry_witness :
  exists output carried rest,
    transform_output (fun _ => "000"%byte) 24000 1 [["001"; "002"; "003"]]%byte = Ok output /\
    transform_carry (fun _ => "000"%byte) 24000 1 [["001"; "002"; "003"]]%byte = Ok carried /\
    transform_output (fun _ => "000"%byte) 24000 1 (carried :: [["004"]])%byte = Ok rest /\
    transform_output (fun _ => "000"%byte) 24000 1
      ([["001"; "002"; "003"]] ++ [["004"]])%byte = Ok (output ++ rest).
Proof.
  apply (output_resumes_from_carry (fun _ => "000"%byte) 24000 1
           [["001"; "002"; "003"]]%byte [["004"]]%byte); [lia | left; reflexivity].
Defined.

Lemma write_chunks_fields (u : nat -> byte) rate channels this0 chunks this pushed :
  0 < channels ->
  PcmTransform_new rate channels = Ok this0 ->
  write_chunks u this0 chunks = Ok (this, pushed) ->
  inputChannels this = channels /\ inputSampleRate this = rate /\
  frameBytes this = channels * PCM_SAMPLE_BYTES /\
  (length (carry this) < frame_bytes channels)%nat.
Proof.
  intros Hch Hnew Hrun.
  destruct (new_transform_fields _ _ _ Hnew) as (Hcarry & Hfb & Hrate & Hchan & _).
  destruct (fresh_transform_spec u rate channels this0 chunks Hch Hnew) as (pushed' & Hrun' & _).
  rewrite Hrun in Hrun'. injection Hrun' as -> _. simpl.
  repeat split; try assumption.
  apply length_drop_usable. assumption.
Qed.

(** X6: one call of [_transform] pushes at most one buffer, and never
    an empty one: a chunk that does not complete a frame is only added
    to the carry; otherwise exactly one buffer holding the whole frames
    available is pushed, and the bytes left over, fewer than
    [frameBytes], are carried. *)
Theorem chunk_pushes_whole_frames_only (u : nat -> byte) rate channels
    (chunks : list Buffer) this0 this pushed0 (chunk : Buffer) :
  0 < channels ->
  PcmTransform_new rate channels = Ok this0 ->
  write_chunks u this0 chunks = Ok (this, pushed0) ->
  let available := (length (carry this) + length chunk)%nat in
  exists this' pushed,
    _transform u this chunk = Ok (this', pushed) /\
    (available < frame_bytes channels ->
     pushed = [] /\ carry this' = carry this ++ chunk)%nat /\
    (frame_bytes channels <= available ->
     (length (carry this') < frame_bytes channels)%nat /\
     exists output,
       pushed = [output] /\
       length output
       = (available / frame_bytes channels * upsample_factor rate * 4)%nat /\
       (0 < length output)%nat)%nat.
Proof.
  intros Hch Hnew Hrun available. pose proof (frame_bytes_pos _ Hch) as Hpos.
  destruct (write_chunks_fields u rate channels this0 chunks this pushed0 Hch Hnew Hrun)
    as (Hchan & Hrate & Hfb & Hcarry).
  rewrite transform_chunk by (rewrite Hchan; assumption).
  rewrite Hchan, Hrate.
  set (full := carry this ++ chunk).
  assert (length full = available) as Hlen by (subst full; apply length_app).
  eexists _, _. split; [reflexivity|]. split.
  - intros Hsmall.
    rewrite usable_length_small by (rewrite Hlen; assumption).
    simpl. rewrite drop_0. auto.
  - intros Hbig. simpl. split; [apply length_drop_usable; assumption|].
    pose proof (usable_length_frames channels full Hch) as Hus.
    pose proof (usable_length_le channels full) as Hle.
    assert (1 <= length full / frame_bytes channels)%nat as Hframes
      by (apply Nat.div_le_lower_bound; lia).
    destruct (Nat.eqb_spec (usable_length channels full) 0) as [E|_]; [nia|].
    eexists. split; [reflexivity|].
    rewrite length_resample, length_take, Nat.min_l, Hus, Nat.div_mul, Hlen by (assumption || lia).
    split; [reflexivity|].
    rewrite Hlen in Hframes. unfold upsample_factor.
    destruct (rate =? DISCORD_SAMPLE_RATE); nia.
Qed.

Lemma chunk_pushes_whole_frames_only_witness :
  let this := {| carry := ["001"]%byte; frameBytes := 2;
                 inputSampleRate := 24000; inputChannels := 1 |} in
  exists this' pushed,
    _transform (fun _ => "000"%byte) this ["002"; "003"; "004"]%byte = Ok (this', pushed) /\
    (4 < 2 -> pushed = [] /\ carry this' = ["001"; "002"; "003"; "004"]%byte)%nat /\
    (2 <= 4 ->
     (length (carry this') < 2)%nat /\
     exists output,
       pushed = [output] /\ length output = (4 / 2 * 2 * 4)%nat /\ (0 < length output)%nat)%nat.
Proof.
  intros this.
  apply (chunk_pushes_whole_frames_only (fun _ => "000"%byte) 24000 1 [["001"]]%byte
           {| carry := []; frameBytes := 2; inputSampleRate := 24000; inputChannels := 1 |}
           this []);
    [lia | reflexivity | reflexivity].
Defined.

(** Looking up in a concatenation of blocks of one size. *)
Lemma lookup_concat_uniform {A} (m : nat) (blocks : list (list A)) : forall i : nat,
  (0 < m)%nat ->
  Forall (fun b => length b = m) blocks ->
  concat blocks !! i = (blocks !! (i / m)%nat) ≫= (fun b => b !! (i mod m)%nat).
Proof.
  induction blocks as [|b blocks IH]; intros i Hm Hall.
  - reflexivity.
  - inversion Hall as [|? ? Hb Hrest]; subst. cbn [concat].
    destruct (Nat.lt_ge_cases i (length b)) as [Hlt|Hge].
    + rewrite lookup_app_l by assumption.
      rewrite Nat.div_small, Nat.mod_small by assumption. reflexivity.
    + rewrite lookup_app_r by assumption.
      rewrite IH by assumption.
      set (m := length b) in *.
      assert (i / m = S ((i - m) / m))%nat as ->.
      { replace i with ((i - m) + 1 * m)%nat at 1 by lia.
        rewrite Nat.div_add by lia. lia. }
      assert (i mod m = (i - m) mod m)%nat as ->.
      { replace i with ((i - m) + 1 * m)%nat at 1 by lia.
        apply Nat.Div0.mod_add. }
      reflexivity.
Qed.

Lemma stereo_frame_lookup channels (input : Buffer) (frame k : nat) :
  0 < channels ->
  ((frame + 1) * frame_bytes channels <= length input)%nat ->
  (k < 4)%nat ->
  stereo_frame channels input frame !! k
  = input !! (frame * frame_bytes channels + (if (channels =? 2)%Z then k else k mod 2))%nat.
Proof.
  intros Hch Hlen Hk. pose proof (frame_bytes_pos _ Hch) as Hpos.
  assert (2 <= frame_bytes channels)%nat as Hfb2
    by (unfold frame_bytes, PCM_SAMPLE_BYTES; lia).
  unfold stereo_frame. set (base := (frame * frame_bytes channels)%nat).
  assert (length (take 2 (drop base input)) = 2%nat) as Hleft
    by (rewrite length_take, length_drop; lia).
  destruct (Nat.lt_ge_cases k 2) as [Hlt|Hge].
  - rewrite lookup_app_l by lia.
    rewrite lookup_take_lt, lookup_drop by assumption.
    rewrite (Nat.mod_small k 2) by assumption.
    destruct (channels =? 2); reflexivity.
  - rewrite lookup_app_r by lia. rewrite Hleft.
    assert (k mod 2 = k - 2)%nat as Hmod.
    { replace k with ((k - 2) + 1 * 2)%nat at 1 by lia.
      rewrite Nat.Div0.mod_add. apply Nat.mod_small. lia. }
    destruct (channels =? 2) eqn:E.
    + rewrite lookup_take_lt, lookup_drop by lia. f_equal. lia.
    + rewrite lookup_take_lt, lookup_drop by lia. rewrite Hmod. reflexivity.
Qed.

Lemma length_stereo_frame channels (input : Buffer) (frame : nat) :
  0 < channels ->
  ((frame + 1) * frame_bytes channels <= length input)%nat ->
  length (stereo_frame channels input frame) = 4%nat.
Proof.
  intros Hch Hlen.
  assert (2 <= frame_bytes channels)%nat
    by (unfold frame_bytes, PCM_SAMPLE_BYTES; lia).
  unfold stereo_frame. destruct (channels =? 2) eqn:E.
  - apply Z.eqb_eq in E. subst channels. change (frame_bytes 2) with 4%nat in *.
    rewrite length_app, !length_take, !length_drop. lia.
  - rewrite length_app, !length_take, !length_drop. lia.
Qed.

Lemma lookup_map {A B} (f : A -> B) (l : list A) (i : nat) :
  map f l !! i = f <$> (l !! i).
Proof. revert i. induction l as [|a l IH]; intros [|i]; simpl; auto. Qed.

(** X7: where every output byte comes from. Output byte [i] lies in
    output frame [i / 4], which copies input frame
    [i / (4 * upsampleFactor)]; inside the frame, a stereo input gives
    its four bytes in order, and a mono input gives its two bytes
    twice. *)
Theorem output_byte_origin (u : nat -> byte) rate channels (chunks : list Buffer)
    (output : Buffer) (i : nat) :
  0 < channels ->
  rate = 24000 \/ rate = 48000 ->
  transform_output u rate channels chunks = Ok output ->
  (i < length output)%nat ->
  output !! i
  = Buffer_concat chunks
      !! (i / (4 * upsample_factor rate) * frame_bytes channels
          + (if (channels =? 2)%Z then i mod 4 else i mod 2))%nat.
Proof.
  intros Hch Hrate Hout Hi. pose proof (frame_bytes_pos _ Hch) as Hpos.
  rewrite transform_output_spec in Hout by assumption.
  injection Hout as <-.
  fold (Buffer_concat chunks) in *. set (whole := Buffer_concat chunks) in *.
  pose proof (usable_length_le channels whole) as Hle.
  pose proof (usable_length_frames channels whole Hch) as Hus.
  set (usable := usable_length channels whole) in *.
  set (input := take usable whole) in *.
  assert (length input = usable) as Hlen
    by (subst input; rewrite length_take; lia).
  rewrite length_resample, Hlen, Hus, Nat.div_mul in Hi by (assumption || lia).
  set (n := (length whole / frame_bytes channels)%nat) in *.
  set (factor := upsample_factor rate) in *.
  assert (1 <= factor)%nat as Hfactor
    by (subst factor; unfold upsample_factor; destruct (rate =? DISCORD_SAMPLE_RATE); lia).
  set (j := (i / (4 * factor))%nat).
  assert (j < n)%nat as Hj by (apply Nat.Div0.div_lt_upper_bound; nia).
  assert (forall k, (k < 4)%nat ->
            stereo_frame channels input j !! k
            = whole !! (j * frame_bytes channels
                        + (if (channels =? 2)%Z then k else k mod 2))%nat) as Hframe.
  { intros k Hk. rewrite stereo_frame_lookup by (assumption || nia).
    apply lookup_take_lt.
    assert (2 <= frame_bytes channels)%nat
      by (unfold frame_bytes, PCM_SAMPLE_BYTES; lia).
    assert (k mod 2 < 2)%nat by (apply Nat.mod_upper_bound; lia).
    assert ((j + 1) * frame_bytes channels <= n * frame_bytes channels)%nat
      by (apply Nat.mul_le_mono_r; lia).
    clearbody j n usable.
    destruct (channels =? 2) eqn:E; [|lia].
    apply Z.eqb_eq in E. subst channels. change (frame_bytes 2) with 4%nat in *. lia. }
  unfold resample, resample_frames. rewrite Hlen, Hus, Nat.div_mul by lia. fold n.
  rewrite (lookup_concat_uniform (4 * factor)).
  - fold j. rewrite lookup_map, lookup_seq_lt by assumption.
    cbn [mbind option_bind fmap option_fmap option_map Nat.add].
    rewrite (lookup_concat_uniform 4).
    + rewrite lookup_replicate_2.
      2:{ apply Nat.Div0.div_lt_upper_bound, Nat.mod_upper_bound. lia. }
      cbn [mbind option_bind].
      assert ((i mod (4 * factor)) mod 4 = i mod 4)%nat as Hmod4.
      { rewrite (Nat.Div0.mod_mul_r i 4 factor).
        rewrite Nat.mul_comm, Nat.Div0.mod_add. apply Nat.Div0.mod_mod. }
      rewrite Hframe by (apply Nat.mod_upper_bound; lia).
      rewrite Hmod4.
      destruct (channels =? 2); [reflexivity|].
      do 2 f_equal.
      replace 4%nat with (2 * 2)%nat at 1 by reflexivity.
      rewrite (Nat.Div0.mod_mul_r i 2 2).
      rewrite Nat.mul_comm, Nat.Div0.mod_add. apply Nat.Div0.mod_mod.
    + lia.
    + apply Forall_replicate, length_stereo_frame; [assumption|].
      rewrite Hlen, Hus. apply Nat.mul_le_mono_r. lia.
  - lia.
  - apply List.Forall_forall. intros b Hb. apply in_map_iff in Hb as (f & <- & Hf).
    apply in_seq in Hf.
    assert (length (stereo_frame channels input f) = 4%nat) as Hsf.
    { apply length_stereo_frame; [assumption|].
      rewrite Hlen, Hus. apply Nat.mul_le_mono_r. lia. }
    fold factor. clear -Hsf. generalize factor. intros k.
    induction k as [|k IH]; [reflexivity|].
    cbn [replicate concat]. rewrite length_app, Hsf, IH. lia.
Qed.

Lemma output_byte_origin_witness :
  let output := ["001"; "002"; "001"; "002"; "001"; "002"; "001"; "002"]%byte in
  output !! 5%nat
  = Buffer_concat [["001"]; ["002"; "003"]]%byte
      !! (5 / (4 * upsample_factor 24000) * frame_bytes 1
          + (if (1 =? 2)%Z then 5 mod 4 else 5 mod 2))%nat.
Proof.
  intros output.
  apply (output_byte_origin (fun _ => "000"%byte) 24000 1 [["001"]; ["002"; "003"]]%byte
           output 5%nat);
    [lia | left; reflexivity | reflexivity | simpl; lia].
Defined.

(** ** Further properties of the playback lifecycle *)

Lemma run_from_snoc s events ev :
  run_from s (events ++ [ev]) = step (run_from s events) ev.
Proof. rewrite run_from_app. reflexivity. Qed.

(** Induction over the events handled so far. *)
Lemma trace_induction (P : list Event -> Playback -> Prop) (s0 : Playback) :
  P [] s0 ->
  (forall events s ev, P events s -> P (events ++ [ev]) (step s ev)) ->
  forall events, P events (run_from s0 events).
Proof.
  intros H0 Hstep events. induction events as [|ev events IH] using rev_ind.
  - exact H0.
  - rewrite run_from_snoc. apply Hstep, IH.
Qed.

(** A call that has returned reacts to nothing. *)
Lemma returned_step s ev o :
  pc s = Returned o -> listening s = false ->
  pc (step s ev) = Returned o /\ listening (step s ev) = false /\
  effects (step s ev) = effects s.
Proof.
  intros Hpc Hl. destruct s as [a st d pd ad l p eff]. simpl in *. subst.
  destruct ev; unfold step, abortDone_listener, settle; simpl; split_cases; simpl; auto.
Qed.

Lemma returned_run_from events : forall s o,
  pc s = Returned o -> listening s = false ->
  pc (run_from s events) = Returned o /\ effects (run_from s events) = effects s.
Proof.
  unfold run_from. induction events as [|ev events IH]; intros s o Hpc Hl; simpl; [auto|].
  destruct (returned_step s ev o Hpc Hl) as (Hpc' & Hl' & Heff).
  destruct (IH _ _ Hpc' Hl') as (H1 & H2). split; congruence.
Qed.

(** A call whose constructor threw has returned and done nothing. *)
Lemma run_after_constructor_throw params events e :
  create_transform params = Throw e ->
  pc (run params events) = Returned (Rejected e) /\
  effects (run params events) = [].
Proof.
  intros Hthrow. unfold run.
  assert (playDiscordPcmStream params
          = {| aborted := false; settled := false; done := false; pipeDone := None;
               abortDone := None; listening := false;
               pc := Returned (Rejected e); effects := [] |}) as ->
    by (unfold playDiscordPcmStream; rewrite Hthrow; reflexivity).
  apply (returned_run_from events
           {| aborted := false; settled := false; done := false; pipeDone := None;
              abortDone := None; listening := false;
              pc := Returned (Rejected e); effects := [] |} (Rejected e));
    reflexivity.
Qed.

(** X11: an unsupported input sample rate rejects the call with the
    constructor's error before anything is set up: whatever events
    follow, nothing is played, stopped, unpiped or destroyed. *)
Theorem unsupported_rate_does_nothing params events e :
  create_transform params = Throw e ->
  pc (run params events) = Returned (Rejected e) /\
  effects (run params events) = [].
Proof. apply run_after_constructor_throw. Qed.

Lemma unsupported_rate_does_nothing_witness :
  let params :=
    {| abortSignal := Some false; param_inputSampleRate := Some 44100;
       param_inputChannels := Some 2; maxBufferedMs := None |} in
  pc (run params [AbortFired; OutputFinish; Resume])
  = Returned (Rejected (UnsupportedSampleRate 44100)) /\
  effects (run params [AbortFired; OutputFinish; Resume]) = [].
Proof.
  intros params.
  apply (unsupported_rate_does_nothing params [AbortFired; OutputFinish; Resume]
           (UnsupportedSampleRate 44100)).
  reflexivity.
Defined.

(** X12: the outcome of a call is final: once it has returned, no later
    event changes the outcome or makes a further call on the player or
    the streams. *)
Theorem outcome_is_final params (events later : list Event) o :
  pc (run params events) = Returned o ->
  pc (run params (events ++ later)) = Returned o /\
  effects (run params (events ++ later)) = effects (run params events).
Proof.
  intros Hpc. unfold run. rewrite run_from_app. fold (run params events).
  apply returned_run_from; [assumption|].
  destruct (lifecycle_inv_run params events) as (played & stopped & _ & _ & _ & _ & Hl & _).
  apply Hl. unfold pending. rewrite Hpc. reflexivity.
Qed.

Lemma outcome_is_final_witness :
  let params :=
    {| abortSignal := Some false; param_inputSampleRate := None;
       param_inputChannels := None; maxBufferedMs := None |} in
  let events := [PlayingSettled; OutputFinish; Resume; Resume; IdleSettled] in
  pc (run params (events ++ [AbortFired; OutputError (StreamError "late")]))
  = Returned (Resolved false) /\
  effects (run params (events ++ [AbortFired; OutputError (StreamError "late")]))
  = effects (run params events).
Proof.
  intros params events.
  apply (outcome_is_final params events [AbortFired; OutputError (StreamError "late")]
           (Resolved false)).
  reflexivity.
Defined.

Lemma step_keeps_play_calls s ev : calls PlayerPlay (step s ev) = calls PlayerPlay s.
Proof.
  destruct s as [a st d pd ad l p eff].
  destruct ev;
    unfold step, abortDone_listener, abortListener, finally, cleanup, settle,
      set_aborted, set_pc, race_settled; simpl;
    split_cases; try reflexivity;
    unfold calls; simpl; rewrite filter_app, length_app; simpl; lia.
Qed.

Lemma run_keeps_play_calls events : forall s,
  calls PlayerPlay (run_from s events) = calls PlayerPlay s.
Proof.
  unfold run_from. induction events as [|ev events IH]; intros s; simpl; [reflexivity|].
  rewrite IH. apply step_keeps_play_calls.
Qed.

(** A call is suspended by its synchronous part exactly when both
    constructors succeeded and the signal was not aborted; [play] has
    then been called. *)
Lemma pending_call params :
  pending (playDiscordPcmStream params) = true ->
  is_Ok (create_transform params) = true /\
  is_Ok (create_output params) = true /\
  abortSignal params <> Some true /\
  aborted (playDiscordPcmStream params) = false /\
  done (playDiscordPcmStream params) = false /\
  pc (playDiscordPcmStream params) = AwaitPlaying /\
  (abortDone (playDiscordPcmStream params) = None \/
   abortDone (playDiscordPcmStream params) = Some false) /\
  effects (playDiscordPcmStream params) = [PlayerPlay].
Proof.
  destruct (call_cases params) as [(e & _ & ->)|(Ht & Ho & ->)]; [discriminate|].
  destruct (abortSignal params) as [[|]|]; [discriminate| |]; intros _;
    repeat split; auto; discriminate.
Qed.

(** [play] is called by the synchronous part of the call, or never. *)
Lemma play_calls_of_run params events :
  calls PlayerPlay (run params events)
  = if pending (playDiscordPcmStream params) then 1%nat else 0%nat.
Proof.
  unfold run. rewrite run_keeps_play_calls.
  destruct (call_cases params) as [(e & _ & ->)|(_ & _ & ->)]; [reflexivity|].
  destruct (abortSignal params) as [[|]|]; reflexivity.
Qed.

(** X13: playback is started at call time or never: when the
    synchronous part of the call leaves it suspended, [player.play] has
    been called exactly once, and no event calls it again; when the
    signal is already aborted at call time, or one of the two
    constructors throws, it is never called. *)
Theorem play_is_called_at_call_time params events :
  (pending (playDiscordPcmStream params) = true ->
   calls PlayerPlay (run params events) = 1%nat) /\
  (abortSignal params = Some true ->
   calls PlayerPlay (run params events) = 0%nat) /\
  (is_Ok (create_transform params) = false \/ is_Ok (create_output params) = false ->
   calls PlayerPlay (run params events) = 0%nat).
Proof.
  rewrite play_calls_of_run. split; [|split].
  - intros ->. reflexivity.
  - intros Hsig. destruct (pending (playDiscordPcmStream params)) eqn:Hp; [|reflexivity].
    destruct (pending_call params Hp) as (_ & _ & H & _). contradiction.
  - intros Hfail. destruct (pending (playDiscordPcmStream params)) eqn:Hp; [|reflexivity].
    destruct (pending_call params Hp) as (Ht & Ho & _).
    destruct Hfail as [H|H]; congruence.
Qed.

Lemma play_is_called_at_call_time_witness :
  let params :=
    {| abortSignal := Some false; param_inputSampleRate := None;
       param_inputChannels := None; maxBufferedMs := None |} in
  calls PlayerPlay (run params [PlayingSettled; AbortFired; OutputClose; Resume]) = 1%nat.
Proof.
  intros params.
  apply (proj1 (play_is_called_at_call_time params
                  [PlayingSettled; AbortFired; OutputClose; Resume])).
  vm_compute. reflexivity.
Defined.

(** No abort: the flag stays down. *)
Lemma unaborted_step s ev :
  ev <> AbortFired ->
  aborted s = false /\ pc s <> Returned (Resolved true) ->
  aborted (step s ev) = false /\ pc (step s ev) <> Returned (Resolved true).
Proof.
  intros Hev [Ha Hpc]. destruct s as [a st d pd ad l p eff]. simpl in *. subst a.
  destruct ev; try congruence;
    unfold step, finally, cleanup, settle, set_pc, race_settled; simpl;
    split_cases; simpl; split; congruence.
Qed.

Lemma unaborted_run params events :
  abortSignal params <> Some true ->
  In AbortFired events \/
  (aborted (run params events) = false /\
   pc (run params events) <> Returned (Resolved true)).
Proof.
  intros Hsig. unfold run.
  apply (trace_induction
           (fun events s =>
              In AbortFired events \/
              (aborted s = false /\ pc s <> Returned (Resolved true)))).
  - right.
    destruct (call_cases params) as [(e & _ & ->)|(_ & _ & ->)];
      [split; [reflexivity|discriminate]|].
    destruct (abortSignal params) as [[|]|]; try congruence;
      split; [reflexivity|discriminate|reflexivity|discriminate].
  - intros evs s ev [Hin|Hs].
    + left. apply in_or_app. left. exact Hin.
    + destruct ev;
        try (right; apply unaborted_step; [discriminate|exact Hs]).
      left. apply in_or_app. right. left. reflexivity.
Qed.

(** X14: the [aborted] flag of the result tells the truth: a call
    resolves with [{aborted: true}] only if its signal was aborted at
    call time or has fired since; otherwise the [aborted] variable is
    never set and the player is never stopped. *)
Theorem aborted_result_needs_abort params events :
  abortSignal params <> Some true ->
  ~ In AbortFired events ->
  let s := run params events in
  aborted s = false /\
  pc s <> Returned (Resolved true) /\
  calls PlayerStop s = 0%nat.
Proof.
  intros Hsig Hin s.
  destruct (unaborted_run params events Hsig) as [H|[Ha Hpc]]; [contradiction|].
  fold s in Ha, Hpc. split; [exact Ha|]. split; [exact Hpc|].
  unfold s, run. rewrite run_keeps_stop_calls by assumption.
  apply initial_stop_calls.
Qed.

Lemma aborted_result_needs_abort_witness :
  let params :=
    {| abortSignal := Some false; param_inputSampleRate := None;
       param_inputChannels := None; maxBufferedMs := None |} in
  let s := run params [PlayingSettled; OutputClose; OutputError (StreamError "boom");
                       Resume; Resume] in
  aborted s = false /\ pc s <> Returned (Resolved true) /\ calls PlayerStop s = 0%nat.
Proof.
  intros params.
  apply (aborted_result_needs_abort params
           [PlayingSettled; OutputClose; OutputError (StreamError "boom"); Resume; Resume]).
  - discriminate.
  - intros H. repeat (destruct H as [H|H]; [discriminate H|]). exact H.
Defined.

Lemma trace_inv_init params : trace_inv [] (playDiscordPcmStream params).
Proof.
  unfold trace_inv.
  destruct (call_cases params) as [(e & _ & ->)|(_ & _ & ->)];
    [|destruct (abortSignal params) as [[|]|]]; simpl;
    repeat split; intros;
    repeat match goal with H : _ \/ _ |- _ => destruct H end;
    try discriminate; auto.
Qed.

Ltac trace_solver :=
  repeat match goal with
  | H : _ /\ _ |- _ => destruct H
  | H : ?a = ?a -> _ |- _ => specialize (H eq_refl)
  | H : ?a = ?a \/ _ -> _ |- _ => specialize (H (or_introl eq_refl))
  | H : _ \/ ?a = ?a \/ _ -> _ |- _ => specialize (H (or_intror (or_introl eq_refl)))
  | H : _ \/ _ \/ ?a = ?a -> _ |- _ => specialize (H (or_intror (or_intror eq_refl)))
  end.

Lemma in_snoc_old (ev ev' : Event) events : In ev events -> In ev (events ++ [ev']).
Proof. intros H. apply in_or_app. left. exact H. Qed.

Lemma in_snoc_new (ev : Event) events : In ev (events ++ [ev]).
Proof. apply in_or_app. right. left. reflexivity. Qed.

Lemma trace_inv_weaken events ev s :
  trace_inv events s -> trace_inv (events ++ [ev]) s.
Proof.
  intros (H1 & H2 & H3 & H4 & H5 & H6). unfold trace_inv.
  repeat split.
  - intros H. destruct (H1 H); auto using in_snoc_old.
  - intros e H. destruct (H2 e H) as (ev' & Hin & He). eauto using in_snoc_old.
  - intros H. auto using in_snoc_old.
  - exact H4.
  - apply in_snoc_old, H5, H.
  - apply in_snoc_old, H5, H.
  - apply in_snoc_old, H5, H.
  - intros e H. destruct (H6 e H) as [?|(? & ev' & Hin & He)]; eauto 6 using in_snoc_old.
Qed.

Lemma trace_inv_step events s ev :
  lifecycle_inv s -> trace_inv events s -> trace_inv (events ++ [ev]) (step s ev).
Proof.
  intros (played & stopped & Hshape & Hstop & Hps & Hplayed & Hl & _ & _ & Hd) Ht.
  apply (trace_inv_weaken events ev) in Ht.
  pose proof (in_snoc_new ev events) as Hin.
  set (seen := events ++ [ev]) in *. clearbody seen. clear events.
  destruct Ht as (H1 & H2 & H3 & H4 & H5 & H6).
  unfold effects_shape, pending in *.
  destruct s as [a st d pd ad l p eff]. simpl in *.
  destruct p as [| | | |[[|]|e']]; simpl in *; trace_solver; subst.
  all: destruct ev; unfold trace_inv, step, abortDone_listener, abortListener, finally,
         cleanup, settle, set_aborted, set_pc, race_settled; simpl; split_cases;
         simpl in *; subst.
  all: repeat split; intros.
  all: repeat match goal with
       | H : _ \/ _ |- _ => destruct H
       | H : _ /\ _ |- _ => destruct H
       end.
  all: try discriminate.
  all: repeat match goal with
       | H : Some _ = Some _ |- _ => injection H as H; subst
       | H : Returned _ = Returned _ |- _ => injection H as H; subst
       | H : Rejected _ = Rejected _ |- _ => injection H as H; subst
       | H : Resolved _ = Resolved _ |- _ => injection H as H; subst
       end.
  all: try discriminate.
  all: trace_solver.
  all: try discriminate.
  all: eauto 3.
  all: try solve [destruct Hd as [Hd1 Hd2];
                  first [discriminate (Hd1 eq_refl) | discriminate (Hd2 eq_refl)]].
  all: try solve [left; discriminate || congruence].
  all: try solve [subst; simpl in *; discriminate].
  all: try solve [right; split; [reflexivity | apply H2; reflexivity]].
  all: try solve [destruct H1 as [H1|H1]; [discriminate H1 | exact H1]].
  all: try solve [destruct H1 as [->|?]; [reflexivity| |]; simpl in *;
                  discriminate || assumption].
Qed.

Lemma trace_inv_run params events : trace_inv events (run params events).
Proof.
  unfold run.
  assert (lifecycle_inv (run_from (playDiscordPcmStream params) events) /\
          trace_inv events (run_from (playDiscordPcmStream params) events)) as [_ H];
    [|exact H].
  apply (trace_induction (fun events s => lifecycle_inv s /\ trace_inv events s)).
  - split; [apply lifecycle_inv_init | apply trace_inv_init].
  - intros evs s ev [Hl Ht]. split; [apply lifecycle_inv_step, Hl | apply trace_inv_step; assumption].
Qed.

(** X15: a call reports normal completion only after the whole pipeline
    has run: it resolves with [{aborted: false}] only if the output has
    emitted 'finish' and both waits on the player, for Playing and for
    Idle, have settled. *)
Theorem normal_completion_needs_finish params events :
  pc (run params events) = Returned (Resolved false) ->
  In OutputFinish events /\ In PlayingSettled events /\ In IdleSettled events.
Proof.
  intros Hpc. destruct (trace_inv_run params events) as (_ & _ & _ & _ & H & _).
  apply H, Hpc.
Qed.

Lemma normal_completion_needs_finish_witness :
  let events := [PlayingSettled; OutputFinish; Resume; Resume; IdleSettled] in
  In OutputFinish events /\ In PlayingSettled events /\ In IdleSettled events.
Proof.
  intros events.
  apply (normal_completion_needs_finish
           {| abortSignal := None; param_inputSampleRate := None;
              param_inputChannels := None; maxBufferedMs := None |} events).
  reflexivity.
Defined.

(** X16: a rejection after the call was suspended always has a cause
    and leaves nothing behind: a call that its synchronous part left
    suspended rejects with [e] only if one of the three streams has
    emitted 'error' with [e]; the calls made are then [play] followed
    by the teardown, each exactly once, and the player was not
    stopped. *)
Theorem rejection_has_a_cause params events e :
  pending (playDiscordPcmStream params) = true ->
  pc (run params events) = Returned (Rejected e) ->
  (exists ev, In ev events /\ stream_error ev = Some e) /\
  effects (run params events) = PlayerPlay :: teardown.
Proof.
  intros Hpend Hpc.
  destruct (trace_inv_run params events) as (_ & _ & _ & _ & _ & H).
  destruct (H e Hpc) as [Heff|[Heff Hev]]; [|split; assumption].
  exfalso.
  pose proof (play_calls_of_run params events) as Hplay.
  rewrite Hpend in Hplay. unfold calls in Hplay. rewrite Heff in Hplay.
  discriminate Hplay.
Qed.

Lemma rejection_has_a_cause_witness :
  let params :=
    {| abortSignal := Some false; param_inputSampleRate := None;
       param_inputChannels := None; maxBufferedMs := None |} in
  let events := [PlayingSettled; TransformError (StreamError "boom"); Resume; Resume] in
  (exists ev, In ev events /\ stream_error ev = Some (StreamError "boom")) /\
  effects (run params events) = PlayerPlay :: teardown.
Proof.
  intros params events.
  apply (rejection_has_a_cause params events (StreamError "boom"));
    vm_compute; reflexivity.
Defined.

Lemma settled_pipe_step s ev r :
  done s = true -> pipeDone s = Some r ->
  done (step s ev) = true /\ pipeDone (step s ev) = Some r.
Proof.
  intros Hd Hp. destruct s as [a st d pd ad l p eff]. simpl in *. subst.
  destruct ev; unfold step, abortDone_listener, abortListener, finally, cleanup, settle,
    set_aborted, set_pc, race_settled; simpl; split_cases; simpl; auto.
Qed.

Lemma settled_pipe_run_from events : forall s r,
  done s = true -> pipeDone s = Some r ->
  pipeDone (run_from s events) = Some r.
Proof.
  unfold run_from. induction events as [|ev events IH]; intros s r Hd Hp; simpl; [assumption|].
  destruct (settled_pipe_step s ev r Hd Hp) as [Hd' Hp']. apply IH; assumption.
Qed.

(** X17: the first settlement of the pipe wins: once [pipeDone] has
    resolved, with an error or without, no later 'error', 'finish' or
    'close' changes what it resolved with. *)
Theorem first_settlement_wins params (events later : list Event) r :
  pipeDone (run params events) = Some r ->
  pipeDone (run params (events ++ later)) = Some r.
Proof.
  intros Hp. unfold run. rewrite run_from_app. fold (run params events).
  apply settled_pipe_run_from; [|assumption].
  destruct (lifecycle_inv_run params events) as (played & stopped & _ & _ & _ & _ & _ & _ & _ & Hd).
  destruct (done (run params events)); [reflexivity|].
  rewrite (proj1 Hd eq_refl) in Hp. discriminate.
Qed.

Lemma first_settlement_wins_witness :
  let params :=
    {| abortSignal := None; param_inputSampleRate := None;
       param_inputChannels := None; maxBufferedMs := None |} in
  pipeDone (run params ([OutputFinish] ++ [OutputError (StreamError "late")])) = Some None.
Proof.
  intros params.
  apply (first_settlement_wins params [OutputFinish] [OutputError (StreamError "late")] None).
  reflexivity.
Defined.

(** X18: a suspended call is never stuck: from any state it can reach,
    the 'finish' of the output, the two [entersState] timers and the
    continuations make it return. *)
Theorem pending_call_can_finish params events :
  pending (run params (events ++ completion)) = false.
Proof.
  unfold run. rewrite run_from_app. fold (run params events).
  destruct (lifecycle_inv_run params events)
    as (played & stopped & _ & _ & _ & _ & _ & _ & _ & Hd).
  destruct (run params events) as [a st d pd ad l p eff]. simpl in Hd.
  destruct d.
  - destruct pd as [[e|]|];
      [| |exfalso; destruct Hd as [_ Hd]; discriminate (Hd eq_refl)].
    all: destruct p as [| | | |o], a, st, ad as [[|]|]; vm_compute; reflexivity.
  - rewrite (proj1 Hd eq_refl).
    destruct p as [| | | |o], a, st, ad as [[|]|]; vm_compute; reflexivity.
Qed.

Lemma waiting_step s ev : quiet ev = true -> waiting s -> waiting (step s ev).
Proof.
  intros Hq (Ha & Hd & Had & Hpc). destruct s as [a st d pd ad l p eff]. simpl in *. subst.
  destruct ev; try discriminate; unfold waiting;
    destruct Had as [-> | ->], Hpc as [-> | ->]; simpl; auto 6.
Qed.

(** X19: the call has no timeout of its own on the pipe: a call that
    its synchronous part left suspended stays suspended as long as the
    output neither finishes nor fails and the signal does not fire,
    whatever the player's timers and the event loop do. *)
Theorem call_waits_for_the_pipe params events :
  pending (playDiscordPcmStream params) = true ->
  forallb quiet events = true ->
  pending (run params events) = true.
Proof.
  intros Hpend Hq.
  assert (waiting (run params events)) as (_ & _ & _ & Hpc).
  { unfold run. revert Hq.
    assert (waiting (playDiscordPcmStream params)) as H0.
    { destruct (pending_call params Hpend) as (_ & _ & _ & Ha & Hd & Hpc & Had & _).
      unfold waiting. auto. }
    revert H0. generalize (playDiscordPcmStream params). unfold run_from.
    induction events as [|ev events IH]; intros s Hs Hq; simpl in *; [exact Hs|].
    apply andb_prop in Hq as [Hq1 Hq2]. apply IH; [|exact Hq2].
    apply waiting_step; assumption. }
  unfold pending. destruct Hpc as [-> | ->]; reflexivity.
Qed.

Lemma call_waits_for_the_pipe_witness :
  pending (run {| abortSignal := Some false; param_inputSampleRate := Some 48000;
                  param_inputChannels := Some 2; maxBufferedMs := None |}
             [PlayingSettled; Resume; OutputClose; IdleSettled; Resume]) = true.
Proof.
  apply call_waits_for_the_pipe; vm_compute; reflexivity.
Defined.

(** ** The gateway methods *)

Section GatewayFacts.

Variable trim : string -> string.
Variable toLowerCase : string -> string.
Variable parseFloat : string -> JsNumber.
Variables Config TtsConfig Exn : Type.
Variable loadConfig : unit -> Exn + Config.
Variable formatForLog : Exn -> string.
Variable OPENAI_TTS_RESPONSE_FORMATS : list string.
Variable OPENAI_TTS_STREAM_FORMATS : list string.
Variable textToSpeech : TextToSpeechArgs Config -> Exn + TtsResult.
Variable resolveTtsConfig : Config -> Exn + TtsConfig.
Variable resolveTtsPrefsPath : TtsConfig -> Exn + string.
Variable setTtsProvider : string -> string -> option Exn.

Local Abbreviation convert :=
  (tts_convert trim toLowerCase parseFloat Config Exn loadConfig formatForLog
     OPENAI_TTS_RESPONSE_FORMATS OPENAI_TTS_STREAM_FORMATS textToSpeech).

Local Abbreviation set_provider :=
  (tts_setProvider trim Config TtsConfig Exn loadConfig formatForLog
     resolveTtsConfig resolveTtsPrefsPath setTtsProvider).

Lemma includes_In (array : list string) (s : string) :
  includes array s = true -> In s array.
Proof.
  unfold includes. intros H. apply existsb_exists in H as (x & Hin & Heq).
  apply String.eqb_eq in Heq. subst. exact Hin.
Qed.

Lemma or_undefined_nonempty (s r : string) :
  or_undefined s = Some r -> r <> EmptyString.
Proof.
  unfold or_undefined. destruct (String.eqb_spec s EmptyString); [discriminate|].
  intros H. injection H as <-. assumption.
Qed.

Lemma speed_in_range (n : JsNumber) :
  negb (Number_isFinite n) || js_lt n (Finite (1 # 4)) || js_lt (Finite 4) n = false ->
  exists q, n = Finite q /\ (1 # 4 <= q)%Q /\ (q <= 4)%Q.
Proof.
  destruct n as [q| | |]; try discriminate. simpl.
  intros H. apply orb_false_iff in H as [H1 H2].
  apply negb_false_iff, Qle_bool_iff in H1, H2. eauto.
Qed.

(** The ways [tts.convert] can go. *)
Lemma convert_cases (params : string -> JsValue) :
  (exists e, convert params = [CallRespond false None (Some e)]) \/
  (exists args outcome,
     convert params = [CallTextToSpeech args; outcome] /\
     args_text args <> EmptyString /\
     (exists s, params "text"%string = JsString s /\ args_text args = trim s) /\
     (forall c, channel args = Some c -> c <> EmptyString) /\
     (forall o, overrides args = Some o ->
        (forall i, instructions o = Some i -> i <> EmptyString) /\
        (forall f, responseFormat o = Some f -> In f OPENAI_TTS_RESPONSE_FORMATS) /\
        (forall f, streamFormat o = Some f -> In f OPENAI_TTS_STREAM_FORMATS) /\
        (forall n, speed o = Some n ->
           exists q, n = Finite q /\ (1 # 4 <= q)%Q /\ (q <= 4)%Q)) /\
     match textToSpeech args with
     | inl err => outcome = respond_error UNAVAILABLE (formatForLog err)
     | inr result =>
         (exists path,
            success result = true /\ audioPath result = Some path /\
            path <> EmptyString /\
            outcome = CallRespond true
                        (Some (ConvertPayload (Some path) (provider result)
                                 (outputFormat result) (voiceCompatible result)))
                        None) \/
         ((success result = false \/ audioPath result = None \/
           audioPath result = Some EmptyString) /\
          outcome = respond_error UNAVAILABLE
                      (default "TTS conversion failed"%string (error result)))
     end).
Proof.
  unfold tts_convert.
  set (text := match params "text"%string with JsString s => trim s | _ => EmptyString end).
  destruct (String.eqb_spec text EmptyString) as [E|Htext]; [left; eexists; reflexivity|].
  destruct (loadConfig tt) as [err|cfg0]; [left; eexists; reflexivity|].
  set (responseFormatRaw :=
         match params "responseFormat"%string with
         | JsString s => Some (toLowerCase (trim s)) | _ => None end).
  set (streamFormatRaw :=
         match params "streamFormat"%string with
         | JsString s => Some (toLowerCase (trim s)) | _ => None end).
  set (speedRaw :=
         match params "speed"%string with
         | JsNum n => Some n | JsString s => Some (parseFloat s) | _ => None end).
  set (chan := match params "channel"%string with
               | JsString s => or_undefined (trim s) | _ => None end).
  set (instr := match params "instructions"%string with
                | JsString s => or_undefined (trim s) | _ => None end).
  set (strm := match params "stream"%string with JsBoolean b => Some b | _ => None end).
  destruct (match responseFormatRaw with
            | Some raw => negb (includes OPENAI_TTS_RESPONSE_FORMATS raw)
            | None => false end) eqn:Hrf; [left; eexists; reflexivity|].
  destruct (match streamFormatRaw with
            | Some raw => negb (includes OPENAI_TTS_STREAM_FORMATS raw)
            | None => false end) eqn:Hsf; [left; eexists; reflexivity|].
  destruct (match speedRaw with
            | Some n => negb (Number_isFinite n) || js_lt n (Finite (1 # 4))
                        || js_lt (Finite 4) n
            | None => false end) eqn:Hsp; [left; eexists; reflexivity|].
  match goal with
  | |- context [CallTextToSpeech ?a :: _] => set (args := a)
  end.
  assert (args_text args <> EmptyString /\
          (exists s, params "text"%string = JsString s /\ args_text args = trim s) /\
          (forall c, channel args = Some c -> c <> EmptyString) /\
          (forall o, overrides args = Some o ->
             (forall i, instructions o = Some i -> i <> EmptyString) /\
             (forall f, responseFormat o = Some f -> In f OPENAI_TTS_RESPONSE_FORMATS) /\
             (forall f, streamFormat o = Some f -> In f OPENAI_TTS_STREAM_FORMATS) /\
             (forall n, speed o = Some n ->
                exists q, n = Finite q /\ (1 # 4 <= q)%Q /\ (q <= 4)%Q))) as Hargs.
  { subst args. cbn [args_text channel overrides].
    split; [exact Htext|]. split.
    { subst text. destruct (params "text"%string); try congruence. eauto. }
    split.
    { intros c Hc. subst chan. destruct (params "channel"%string); try discriminate.
      eapply or_undefined_nonempty, Hc. }
    intros o Ho.
    destruct (defined instr || defined strm || defined responseFormatRaw
              || defined streamFormatRaw || defined speedRaw); [|discriminate].
    injection Ho as <-. cbn [instructions responseFormat streamFormat speed].
    repeat split.
    - intros i Hi. subst instr. destruct (params "instructions"%string); try discriminate.
      eapply or_undefined_nonempty, Hi.
    - intros f Hf. rewrite Hf in Hrf. apply negb_false_iff in Hrf.
      apply includes_In, Hrf.
    - intros f Hf. rewrite Hf in Hsf. apply negb_false_iff in Hsf.
      apply includes_In, Hsf.
    - intros n Hn. rewrite Hn in Hsp. apply speed_in_range, Hsp. }
  clearbody args. destruct Hargs as (H1 & H2 & H3 & H4).
  right. exists args.
  destruct (textToSpeech args) as [err|result].
  { eexists. split; [reflexivity|]. do 4 (split; [assumption|]). reflexivity. }
  destruct (success result); cbn [andb].
  - destruct (audioPath result) as [path|] eqn:Hpath.
    + destruct (String.eqb_spec path EmptyString) as [->|Hne]; cbn [negb].
      * eexists. split; [reflexivity|]. do 4 (split; [assumption|]).
        right. auto.
      * eexists. split; [reflexivity|]. do 4 (split; [assumption|]).
        left. exists path. auto.
    + eexists. split; [reflexivity|]. do 4 (split; [assumption|]).
      right. auto.
  - eexists. split; [reflexivity|]. do 4 (split; [assumption|]).
    right. auto.
Qed.

(** X20: every [tts.convert] request is answered exactly once, by the
    last call the handler makes, and [textToSpeech] is called at most
    once, before the answer; this holds when the configuration loader
    or [textToSpeech] throws, too. *)
Theorem convert_responds_exactly_once (params : string -> JsValue) :
  exists ok payload error,
    convert params = [CallRespond ok payload error] \/
    exists args, convert params = [CallTextToSpeech args; CallRespond ok payload error].
Proof.
  destruct (convert_cases params) as [[e He]|(args & outcome & Hrun & _ & _ & _ & _ & Hout)].
  - exists false, None, (Some e). left. exact He.
  - destruct (textToSpeech args) as [err|result].
    + subst outcome. eexists _, _, _. right. exists args. exact Hrun.
    + destruct Hout as [(path & _ & _ & _ & ->)|[_ ->]];
        eexists _, _, _; right; exists args; exact Hrun.
Qed.

(** X21: whatever reaches [textToSpeech] has been validated: the text
    is the trimmed [text] parameter and is not empty; a channel or
    instructions, when passed on, are not empty; a response format and
    a stream format, when passed on, are among the formats allowed; a
    speed, when passed on, is a finite number between 0.25 and 4. *)
Theorem convert_validates_before_synthesis (params : string -> JsValue)
    (args : TextToSpeechArgs Config) :
  In (CallTextToSpeech args) (convert params) ->
  args_text args <> EmptyString /\
  (exists s, params "text"%string = JsString s /\ args_text args = trim s) /\
  (forall c, channel args = Some c -> c <> EmptyString) /\
  (forall o, overrides args = Some o ->
     (forall i, instructions o = Some i -> i <> EmptyString) /\
     (forall f, responseFormat o = Some f -> In f OPENAI_TTS_RESPONSE_FORMATS) /\
     (forall f, streamFormat o = Some f -> In f OPENAI_TTS_STREAM_FORMATS) /\
     (forall n, speed o = Some n ->
        exists q, n = Finite q /\ (1 # 4 <= q)%Q /\ (q <= 4)%Q)).
Proof.
  intros Hin.
  destruct (convert_cases params)
    as [[e He]|(args' & outcome & Hrun & H1 & H2 & H3 & H4 & Hout)].
  - rewrite He in Hin. destruct Hin as [Hin|[]]. discriminate Hin.
  - assert (args = args') as ->.
    { rewrite Hrun in Hin. destruct Hin as [Hin|[Hin|[]]].
      - injection Hin as <-. reflexivity.
      - exfalso. subst outcome. destruct (textToSpeech args') as [err|result].
        + discriminate Hout.
        + destruct Hout as [(path & _ & _ & _ & Hout)|[_ Hout]]; discriminate Hout. }
    auto.
Qed.

(** X22: a successful answer always carries audio: the handler answers
    [ok = true] only when [textToSpeech] was called and resolved with
    [success] and a non-empty [audioPath], which the payload repeats;
    a result that claims success without an audio path is answered as
    an error. *)
Theorem convert_success_needs_audio (params : string -> JsValue)
    (payload : option Payload) (error : option ErrorShape) :
  In (CallRespond true payload error) (convert params) ->
  error = None /\
  exists args result path,
    In (CallTextToSpeech args) (convert params) /\
    textToSpeech args = inr result /\
    success result = true /\
    audioPath result = Some path /\ path <> EmptyString /\
    payload = Some (ConvertPayload (Some path) (provider result)
                      (outputFormat result) (voiceCompatible result)).
Proof.
  intros Hin.
  destruct (convert_cases params)
    as [[e He]|(args & outcome & Hrun & _ & _ & _ & _ & Hout)].
  - rewrite He in Hin. destruct Hin as [Hin|[]]. discriminate Hin.
  - rewrite Hrun in Hin |- *. destruct Hin as [Hin|[Hin|[]]]; [discriminate Hin|].
    subst outcome. destruct (textToSpeech args) as [err|result] eqn:Htts.
    + discriminate Hout.
    + destruct Hout as [(path & Hs & Hp & Hne & Hout)|[_ Hout]]; [|discriminate Hout].
      injection Hout as -> ->. split; [reflexivity|].
      exists args, result, path. repeat split; try assumption. left. reflexivity.
Qed.

(** X23: a request answered with [INVALID_REQUEST] never reaches the
    TTS module: when the text is missing or a format or the speed is
    refused, [textToSpeech] is not called. *)
Theorem invalid_request_never_synthesizes (params : string -> JsValue)
    (ok : bool) (payload : option Payload) (e : ErrorShape) :
  In (CallRespond ok payload (Some e)) (convert params) ->
  code e = INVALID_REQUEST ->
  ok = false /\ payload = None /\
  forall args, ~ In (CallTextToSpeech args) (convert params).
Proof.
  intros Hin Hcode.
  destruct (convert_cases params)
    as [[e' He]|(args & outcome & Hrun & _ & _ & _ & _ & Hout)].
  - rewrite He in Hin |- *. destruct Hin as [Hin|[]]. injection Hin as -> -> ->.
    repeat split. intros args [H|[]]. discriminate H.
  - exfalso. rewrite Hrun in Hin. destruct Hin as [Hin|[Hin|[]]]; [discriminate Hin|].
    subst outcome. destruct (textToSpeech args) as [err|result].
    + injection Hout as _ _ ->. discriminate Hcode.
    + destruct Hout as [(path & _ & _ & _ & Hout)|[_ Hout]];
        [discriminate Hout|].
      injection Hout as _ _ ->. discriminate Hcode.
Qed.

(** X24: [tts.setProvider] stores nothing but a known provider:
    [setTtsProvider] is called at most once and only with [openai],
    [elevenlabs] or [edge], the trimmed [provider] parameter; the
    request is answered exactly once, and with [ok = true] only when
    that call was made and returned, the payload naming the provider
    stored. *)
Theorem set_provider_accepts_only_known (params : string -> JsValue) :
  (exists e, set_provider params = [CallRespond false None (Some e)]) \/
  (exists prefsPath provider,
     (exists s, params "provider"%string = JsString s /\ provider = trim s) /\
     (provider = "openai" \/ provider = "elevenlabs" \/ provider = "edge")%string /\
     ((set_provider params
       = [CallSetTtsProvider prefsPath provider;
          CallRespond true (Some (ProviderPayload provider)) None] /\
       setTtsProvider prefsPath provider = None) \/
      (exists err,
         set_provider params
         = [CallSetTtsProvider prefsPath provider;
            respond_error UNAVAILABLE (formatForLog err)] /\
         setTtsProvider prefsPath provider = Some err))).
Proof.
  unfold tts_setProvider.
  set (provider := match params "provider"%string with
                   | JsString s => trim s | _ => EmptyString end).
  assert (provider <> EmptyString ->
          exists s, params "provider"%string = JsString s /\ provider = trim s) as Hp.
  { subst provider. destruct (params "provider"%string); try congruence. eauto. }
  assert (negb (provider =? "openai")%string && negb (provider =? "elevenlabs")%string
          && negb (provider =? "edge")%string = false ->
          (provider = "openai" \/ provider = "elevenlabs" \/ provider = "edge")%string)
    as Hknown.
  { destruct (String.eqb_spec provider "openai"); [auto|].
    destruct (String.eqb_spec provider "elevenlabs"); [auto|].
    destruct (String.eqb_spec provider "edge"); [auto|]. discriminate. }
  clearbody provider.
  destruct (negb (provider =? "openai")%string && negb (provider =? "elevenlabs")%string
            && negb (provider =? "edge")%string); [left; eexists; reflexivity|].
  specialize (Hknown eq_refl).
  assert (provider <> EmptyString) as Hne
    by (destruct Hknown as [->|[->| ->]]; discriminate).
  pose proof (Hp Hne) as Hs.
  destruct (loadConfig tt) as [err|cfg0]; [left; eexists; reflexivity|].
  destruct (resolveTtsConfig cfg0) as [err|config]; [left; eexists; reflexivity|].
  destruct (resolveTtsPrefsPath config) as [err|prefsPath]; [left; eexists; reflexivity|].
  right. exists prefsPath, provider. do 2 (split; [assumption|]).
  destruct (setTtsProvider prefsPath provider) as [err|] eqn:Hset.
  - right. exists err. auto.
  - left. auto.
Qed.

End GatewayFacts.


Lemma convert_validates_before_synthesis_witness :
  let args :=
    {| args_text := "hello"%string; cfg := tt; channel := None;
       overrides := Some {| instructions := None; stream_override := None;
                            responseFormat := Some "mp3"%string; streamFormat := None;
                            speed := Some (Finite 2) |} |} in
  args_text args <> EmptyString /\
  (exists s, example_params "text"%string = JsString s /\ args_text args = s) /\
  (forall c, channel args = Some c -> c <> EmptyString) /\
  (forall o, overrides args = Some o ->
     (forall i, instructions o = Some i -> i <> EmptyString) /\
     (forall f, responseFormat o = Some f ->
        In f ["mp3"; "opus"; "aac"; "flac"; "wav"; "pcm"]%string) /\
     (forall f, streamFormat o = Some f -> In f ["audio"; "sse"]%string) /\
     (forall n, speed o = Some n ->
        exists q, n = Finite q /\ (1 # 4 <= q)%Q /\ (q <= 4)%Q)).
Proof.
  intros args.
  apply (convert_validates_before_synthesis (fun s => s) (fun s => s) (fun _ => NaN)
           unit string (fun _ => inr tt) (fun err => err)
           ["mp3"; "opus"; "aac"; "flac"; "wav"; "pcm"]%string ["audio"; "sse"]%string
           example_textToSpeech example_params args).
  left. reflexivity.
Defined.

Lemma convert_success_needs_audio_witness :
  let payload :=
    Some (ConvertPayload (Some "/tmp/tts.mp3") (Some "openai") (Some "mp3")
            (Some false))%string in
  @None ErrorShape = None /\
  exists args result path,
    In (CallTextToSpeech args) (example_convert example_params) /\
    example_textToSpeech args = inr result /\
    success result = true /\
    audioPath result = Some path /\ path <> EmptyString /\
    payload = Some (ConvertPayload (Some path) (provider result)
                      (outputFormat result) (voiceCompatible result)).
Proof.
  intros payload.
  apply (convert_success_needs_audio (fun s => s) (fun s => s) (fun _ => NaN)
           unit string (fun _ => inr tt) (fun err => err)
           ["mp3"; "opus"; "aac"; "flac"; "wav"; "pcm"]%string ["audio"; "sse"]%string
           example_textToSpeech example_params payload None).
  right. left. reflexivity.
Defined.

Lemma invalid_request_never_synthesizes_witness :
  let params (key : string) :=
    if (key =? "text")%string then JsString "hello"
    else if (key =? "speed")%string then JsNum (Finite 5)
    else JsUndefined in
  false = false /\ @None Payload = None /\
  forall args, ~ In (CallTextToSpeech args) (example_convert params).
Proof.
  intros params.
  apply (invalid_request_never_synthesizes (fun s => s) (fun s => s) (fun _ => NaN)
           unit string (fun _ => inr tt) (fun err => err)
           ["mp3"; "opus"; "aac"; "flac"; "wav"; "pcm"]%string ["audio"; "sse"]%string
           example_textToSpeech params false None
           (errorShape INVALID_REQUEST "Invalid speed. Use a number between 0.25 and 4.0."));
    [left; reflexivity | reflexivity].
Defined.
